(** * goalsa: the reader thread ring buffer (src/reader_thread.c)

    A shallow embedding of [reader_thread_loop], [reader_thread_poll],
    [reader_thread_start] and [reader_thread_stop], and the properties of
    the ring buffer shared by the capture thread and the consumer.

    Layout of the file:
    - [CInt]: the C [int] arithmetic used for the offsets;
    - [Mem]: byte blocks, [store] (what the device writes) and [memcpy];
    - the struct [reader_thread_state_s] and the bodies of the C functions,
      cut at the places where the mutex is taken and released;
    - [Machine]: the two threads interleaved, with the mutex owner explicit;
    - [Inv]: what the interleaved threads keep true;
    - the lemmas, and the claims C1 to C10 about the ring buffer. *)

From Stdlib Require Import String.
From Stdlib.Strings Require Import Byte.
From Stdlib Require Import ZArith List Bool Lia.
Import ListNotations.
Local Open Scope Z_scope.

Set Implicit Arguments.

(** ** C [int] arithmetic

    The offsets and lengths of the struct are C [int]s (32 bits on the
    platforms ALSA runs on).  Additions and the product [bytes * bufcount]
    are written with the two's complement wrap-around spelled out, so every
    result below that needs "no overflow" has to ask for it. *)

Module CInt.

Definition INT_MAX : Z := 2147483647.
Definition INT_MIN : Z := -2147483648.

Definition in_range (z : Z) : Prop := INT_MIN <= z <= INT_MAX.

Definition wrap (z : Z) : Z := (z + 2147483648) mod 4294967296 - 2147483648.

Definition add (a b : Z) : Z := wrap (a + b).
Definition mul (a b : Z) : Z := wrap (a * b).

End CInt.

(** [EPIPE] of <errno.h> on Linux. *)
Definition EPIPE : Z := 32.

(** ** Byte blocks *)

Module Mem.

Definition block := list byte.

Definition len (b : block) : Z := Z.of_nat (length b).

(** [n] bytes of [b] starting at offset [off]: the bytes a [memcpy] with
    source [b + off] reads. *)
Definition load (b : block) (off n : Z) : block :=
  firstn (Z.to_nat n) (skipn (Z.to_nat off) b).

(** The block after [data] has been written at offset [off].  It follows
    C while [0 <= off] and [off + len data <= len b] (a write past the end
    of the allocation has no defined behaviour in C). *)
Definition store (b : block) (off : Z) (data : block) : block :=
  firstn (Z.to_nat off) b ++ data ++ skipn (Z.to_nat off + length data) b.

(** [memcpy(dst, src_block + src, n)]: the first [n] bytes of the
    destination are replaced, the rest is kept.  It follows C while the
    destination has at least [n] bytes. *)
Definition memcpy (dst : block) (src_block : block) (src n : Z) : block :=
  load src_block src n ++ skipn (Z.to_nat n) dst.

End Mem.

(** ** The shared state: [struct reader_thread_state_s]

    [buf] is the block that [s->buf] points to; a pointer into it
    ([s->buf + s->head_offset]) is its offset.  The mutex [mu] appears in
    [Machine] below, as its owner; [cond], [h] and [tid] hold no data of the
    ring buffer: the device behind [h] is given by the results of its reads. *)

Record reader_thread_state : Type := mk_state {
  buf : Mem.block;
  head_offset : Z;
  tail_offset : Z;
  period_frames : Z;
  period_bytes : Z;
  buf_len : Z;
  stop : bool;
  overrun : bool;
  error : bool
}.

Definition set_head_offset (s : reader_thread_state) (v : Z) :=
  mk_state (buf s) v (tail_offset s) (period_frames s) (period_bytes s)
           (buf_len s) (stop s) (overrun s) (error s).

Definition set_tail_offset (s : reader_thread_state) (v : Z) :=
  mk_state (buf s) (head_offset s) v (period_frames s) (period_bytes s)
           (buf_len s) (stop s) (overrun s) (error s).

Definition set_stop (s : reader_thread_state) (v : bool) :=
  mk_state (buf s) (head_offset s) (tail_offset s) (period_frames s)
           (period_bytes s) (buf_len s) v (overrun s) (error s).

Definition set_overrun (s : reader_thread_state) (v : bool) :=
  mk_state (buf s) (head_offset s) (tail_offset s) (period_frames s)
           (period_bytes s) (buf_len s) (stop s) v (error s).

Definition set_error (s : reader_thread_state) (v : bool) :=
  mk_state (buf s) (head_offset s) (tail_offset s) (period_frames s)
           (period_bytes s) (buf_len s) (stop s) (overrun s) v.

Definition set_buf (s : reader_thread_state) (v : Mem.block) :=
  mk_state v (head_offset s) (tail_offset s) (period_frames s)
           (period_bytes s) (buf_len s) (stop s) (overrun s) (error s).

(** What the code does besides updating the struct. *)
Inductive effect : Type :=
| SetErrorString (msg : string)   (* reader_thread_error = msg *)
| Stderr (msg : string)           (* fprintf(stderr, msg) *)
| SndPcmPrepare                   (* snd_pcm_prepare(s->h) *)
| CondSignal.                     (* pthread_cond_signal(&s->cond) *)

(** [const char *reader_thread_error = "no error";] *)
Definition reader_thread_error_init : string := "no error"%string.

(** The global [reader_thread_error] after a list of effects, from its
    value [cur] before them. *)
Fixpoint error_string_after (cur : string) (es : list effect) : string :=
  match es with
  | [] => cur
  | SetErrorString msg :: es' => error_string_after msg es'
  | _ :: es' => error_string_after cur es'
  end.

(** ** The capture thread: [reader_thread_loop]

    One result of [snd_pcm_readi(s->h, ptr, s->period_frames)]: its return
    code and the bytes it wrote at [ptr]. *)

Record readi_result : Type := mk_readi {
  rc : Z;
  written : Mem.block
}.

(** Lines 56-60: the offset of the slot after the head slot. *)
Definition next_offset (s : reader_thread_state) : Z :=
  let next_offset := CInt.add (head_offset s) (period_bytes s) in
  if next_offset >=? buf_len s then 0 else next_offset.

(** Lines 54-65, with the mutex held: the loop test, [ptr], [next_offset],
    the overrun mark, up to the unlock before the device read.  [None] when
    the loop is left. *)
Definition loop_head (s : reader_thread_state)
  : reader_thread_state * option (Z * Z) :=
  if stop s then (s, None)
  else
    let ptr := head_offset s in
    let next_offset := next_offset s in
    let s := if next_offset =? tail_offset s then set_overrun s true else s in
    (s, Some (ptr, next_offset)).

(** Line 66, with the mutex released: the device writes at [ptr]. *)
Definition snd_pcm_readi (s : reader_thread_state) (ptr : Z) (r : readi_result)
  : reader_thread_state :=
  set_buf s (Mem.store (buf s) ptr (written r)).

(** Lines 68-83, with the mutex held again: the result of the read is
    classified by the [if] chain of the loop body. *)
Inductive readi_class : Type :=
| DeviceOverrun      (* line 68: rc == -EPIPE *)
| FatalError         (* line 72: rc < 0 *)
| OverrunPending     (* line 76: s->overrun *)
| Publish.           (* line 78: else *)

Definition classify (s : reader_thread_state) (rc : Z) : readi_class :=
  if rc =? - EPIPE then DeviceOverrun
  else if rc <? 0 then FatalError
  else if overrun s then OverrunPending
  else Publish.

Definition loop_tail (s : reader_thread_state) (next_offset : Z) (rc : Z)
  : reader_thread_state * list effect :=
  match classify s rc with
  | DeviceOverrun =>
      (set_overrun s true,
       [Stderr "realtime alsa overrun"%string; SndPcmPrepare])
  | FatalError =>
      (set_stop (set_error s true) true,
       [SetErrorString "snd_pcm_readi"%string])
  | OverrunPending =>
      (s, [])
  | Publish =>
      (set_head_offset s next_offset,
       if head_offset s =? tail_offset s then [CondSignal] else [])
  end.

(** One turn of the loop with no other thread in between: lines 54-83.
    [None] when the loop is left. *)
Definition loop_iteration (s : reader_thread_state) (r : readi_result)
  : option (reader_thread_state * list effect) :=
  match loop_head s with
  | (_, None) => None
  | (s1, Some (ptr, next_offset)) =>
      Some (loop_tail (snd_pcm_readi s1 ptr r) next_offset (rc r))
  end.

(** The capture thread alone, standing in a read with [ptr] and
    [next_offset] computed: the reads [rs] return one after the other, and
    the thread ends in the read that follows them (or has left the loop). *)
Fixpoint capture_reads (s : reader_thread_state) (ptr next_offset : Z)
    (rs : list readi_result) : reader_thread_state * option (Z * Z) :=
  match rs with
  | [] => (s, Some (ptr, next_offset))
  | r :: rs' =>
      let s1 := fst (loop_tail (snd_pcm_readi s ptr r) next_offset (rc r)) in
      match loop_head s1 with
      | (s2, Some (ptr', next_offset')) => capture_reads s2 ptr' next_offset' rs'
      | (s2, None) => (s2, None)
      end
  end.

(** [reader_thread_loop] from its entry (line 53), alone, through the
    reads [rs]. *)
Definition reader_thread_loop (s : reader_thread_state) (rs : list readi_result)
  : reader_thread_state * option (Z * Z) :=
  match loop_head s with
  | (s1, Some (ptr, next_offset)) => capture_reads s1 ptr next_offset rs
  | (s1, None) => (s1, None)
  end.

(** ** The consumer: [reader_thread_poll] *)

(** Line 101, the condition of the wait loop. *)
Definition poll_must_wait (s : reader_thread_state) : bool :=
  (head_offset s =? tail_offset s) && negb (overrun s || error s).

(** Lines 104-117, with the mutex held and the wait loop left: the return
    value, [src] (when set) and the state. *)
Definition poll_locked (s : reader_thread_state)
  : Z * option Z * reader_thread_state :=
  if error s then
    (-1, None, s)
  else if overrun s then
    (1, None, set_tail_offset (set_overrun s false) (head_offset s))
  else
    let src := tail_offset s in
    let t := CInt.add (tail_offset s) (period_bytes s) in
    let t := if t >=? buf_len s then 0 else t in
    (0, Some src, set_tail_offset s t).

(** Lines 119-121, with the mutex released: the copy, on [ret == 0] only. *)
Definition poll_copy (s : reader_thread_state) (ret : Z) (src : option Z)
    (dst : Mem.block) : Mem.block :=
  if ret =? 0 then
    match src with
    | Some off => Mem.memcpy dst (buf s) off (period_bytes s)
    | None => dst
    end
  else dst.

Inductive poll_outcome : Type :=
| Waits                                   (* blocked in pthread_cond_wait *)
| Returns (ret : Z) (s : reader_thread_state) (dst : option Mem.block)
          (es : list effect).

(** [reader_thread_poll(s, buf)] with no other thread in between.  The
    destination is [None] for a null pointer. *)
Definition reader_thread_poll (s : reader_thread_state) (dst : option Mem.block)
  : poll_outcome :=
  match dst with
  | None => Returns (-1) s None [SetErrorString "null buffer"%string]
  | Some d =>
      if poll_must_wait s then Waits
      else
        let '(ret, src, s') := poll_locked s in
        Returns ret s' (Some (poll_copy s' ret src d)) []
  end.

(** Calls of [reader_thread_poll] one after the other, one destination
    each, with no other thread in between: the return value and the
    destination of every call that returns.  A call that waits ends the
    sequence (nothing wakes it). *)
Fixpoint poll_seq (s : reader_thread_state) (dsts : list Mem.block)
  : list (Z * option Mem.block) * reader_thread_state :=
  match dsts with
  | [] => ([], s)
  | d :: dsts' =>
      match reader_thread_poll s (Some d) with
      | Waits => ([], s)
      | Returns ret s' d' _ =>
          let (out, s'') := poll_seq s' dsts' in ((ret, d') :: out, s'')
      end
  end.

(** ** Construction: [reader_thread_start]

    What the C library answers during the call: whether the first [malloc]
    gives a block, the bytes found in the block the second [malloc] gives
    for a size (they are whatever the allocator hands out; [None] when it
    has no memory), and the return code of [pthread_create]. *)

Record libc : Type := mk_libc {
  malloc_state : bool;
  heap : Z -> option Mem.block;
  pthread_create_rc : Z
}.

(** [malloc(n)]: a block of [n] bytes, or [NULL]. *)
Definition malloc (e : libc) (n : Z) : option Mem.block :=
  match heap e n with
  | Some b => if Mem.len b =? n then Some b else None
  | None => None
  end.

(** Lines 125-161.  [memset(s, 0, sizeof( *s))] clears the offsets and the
    flags of the struct. *)
Definition reader_thread_start (e : libc) (bytes frames bufcount : Z)
  : option reader_thread_state * list effect :=
  if negb (malloc_state e) then
    (None, [SetErrorString "malloc failed (state)"%string])
  else
    let len := CInt.mul bytes bufcount in
    match malloc e len with
    | None => (None, [SetErrorString "malloc failed (buf)"%string])
    | Some b =>
        if pthread_create_rc e =? 0 then
          (Some (mk_state b 0 0 frames bytes len false false false), [])
        else
          (None, [SetErrorString "pthread_create failed"%string])
    end.

(** Line 169 of [reader_thread_stop]: the flag is set without the mutex.
    [pthread_join] (line 170) then waits for the capture thread to leave
    [reader_thread_loop], and lines 171-172 free the buffer and the
    struct: no call on the struct is defined after them, so what is said
    of states with [stop] set is about the time until the join returns. *)
Definition reader_thread_stop (s : reader_thread_state) : reader_thread_state :=
  set_stop s true.

(** ** Slots of the ring

    With [pb] bytes per period and [n] slots, the offsets of a well-formed
    state are [pb * i] for a slot index [0 <= i < n]. *)

(** The slot [j] places after slot [i], for [0 <= j <= n]. *)
Definition slot (n i j : Z) : Z := if i + j <? n then i + j else i + j - n.

Record ring_ok (pb n : Z) (s : reader_thread_state) (hi ti : Z) : Prop := {
  ok_period_bytes : period_bytes s = pb;
  ok_buf_len : buf_len s = pb * n;
  ok_buf : Mem.len (buf s) = pb * n;
  ok_head : head_offset s = pb * hi;
  ok_tail : tail_offset s = pb * ti;
  ok_hi : 0 <= hi < n;
  ok_ti : 0 <= ti < n
}.

(** The periods [q], oldest first, stand in the slots of [b] from slot
    [ti] on. *)
Fixpoint holds (pb n : Z) (b : Mem.block) (ti : Z) (q : list Mem.block) : Prop :=
  match q with
  | [] => True
  | d :: q' => Mem.load b (pb * ti) pb = d /\ holds pb n b (slot n ti 1) q'
  end.

(** ** The two threads together

    The capture thread and one consumer, interleaved at the places where
    the code takes, releases or waits for the mutex.  A thread takes the
    mutex only when nobody owns it.  [pthread_cond_wait] may return without
    a signal, so a waiting consumer may go on whenever the mutex is free.
    Lines 54-65 are one step: a write of [stop] (line 169, done without
    the mutex) that falls between the test of line 54 and the unlock of
    line 65 counts as falling after the unlock.  [Fine] below keeps the
    test and the unlock apart, for what depends on that order. *)

Module Machine.

Inductive thread : Type := Capture | Consumer.

(** Where the capture thread stands in [reader_thread_loop]. *)
Inductive capture_pc : Type :=
| PEntry                             (* line 53, before pthread_mutex_lock *)
| PLoop                              (* line 54, the loop test *)
| PReadi (ptr next_offset : Z)       (* line 66, in snd_pcm_readi *)
| PRelock (next_offset rc : Z)       (* line 67, before pthread_mutex_lock *)
| PExit.                             (* line 87 *)

(** Where the consumer stands in [reader_thread_poll]. *)
Inductive consumer_pc : Type :=
| CIdle                              (* outside the function *)
| CLoop (dst : Mem.block)            (* line 101, the wait loop test *)
| CWait (dst : Mem.block)            (* line 102, in pthread_cond_wait *)
| CCopy (ret : Z) (src : option Z) (dst : Mem.block).  (* line 119 *)

Record machine : Type := mk_machine {
  shared : reader_thread_state;
  mu : option thread;
  cap : capture_pc;
  con : consumer_pc
}.

(** What happens next: which thread moves, and what the outside gives it. *)
Inductive action : Type :=
| ACapture                           (* the capture thread, not in a read *)
| AReadi (r : readi_result)          (* its snd_pcm_readi returns *)
| AStop                              (* reader_thread_stop, line 169 *)
| APollNull                          (* reader_thread_poll(s, NULL) *)
| APoll (dst : Mem.block)            (* reader_thread_poll(s, dst), to line 100 *)
| AConsumer.                         (* the consumer inside the call *)

Inductive event : Type :=
| EvLock (t : thread)
| EvUnlockRead (ptr next_offset : Z) (* line 65, the read begins *)
| EvRead (r : readi_result)          (* line 66 has returned *)
| EvClassified (c : readi_class) (es : list effect)   (* lines 67-83 *)
| EvExit                             (* line 85 *)
| EvStop
| EvWait                             (* line 102 entered *)
| EvPollLocked (ret : Z)             (* lines 104-118 *)
| EvPollReturn (ret : Z) (dst : option Mem.block).

Definition is_free (m : machine) : bool :=
  match mu m with None => true | Some _ => false end.

Definition step_capture (m : machine) : option (event * machine) :=
  let s := shared m in
  match cap m with
  | PEntry =>
      if is_free m
      then Some (EvLock Capture, mk_machine s (Some Capture) PLoop (con m))
      else None
  | PLoop =>
      match loop_head s with
      | (s', Some (ptr, next_offset)) =>
          Some (EvUnlockRead ptr next_offset,
                mk_machine s' None (PReadi ptr next_offset) (con m))
      | (s', None) =>
          Some (EvExit, mk_machine s' None PExit (con m))
      end
  | PReadi _ _ => None
  | PRelock next_offset rc =>
      if is_free m then
        let (s', es) := loop_tail s next_offset rc in
        Some (EvClassified (classify s rc) es,
              mk_machine s' (Some Capture) PLoop (con m))
      else None
  | PExit => None
  end.

(** The device writes no more than one period: [period_frames] frames
    are [period_bytes] bytes. *)
Definition step_readi (m : machine) (r : readi_result)
  : option (event * machine) :=
  let s := shared m in
  match cap m with
  | PReadi ptr next_offset =>
      if Mem.len (written r) <=? period_bytes s then
        Some (EvRead r,
              mk_machine (snd_pcm_readi s ptr r) (mu m)
                         (PRelock next_offset (rc r)) (con m))
      else None
  | _ => None
  end.

Definition step_consumer (m : machine) : option (event * machine) :=
  let s := shared m in
  match con m with
  | CIdle => None
  | CLoop dst =>
      if poll_must_wait s then
        Some (EvWait, mk_machine s None (cap m) (CWait dst))
      else
        let '(ret, src, s') := poll_locked s in
        Some (EvPollLocked ret,
              mk_machine s' None (cap m) (CCopy ret src dst))
  | CWait dst =>
      if is_free m
      then Some (EvLock Consumer, mk_machine s (Some Consumer) (cap m) (CLoop dst))
      else None
  | CCopy ret src dst =>
      Some (EvPollReturn ret (Some (poll_copy s ret src dst)),
            mk_machine s (mu m) (cap m) CIdle)
  end.

Definition step (m : machine) (a : action) : option (event * machine) :=
  match a with
  | ACapture => step_capture m
  | AReadi r => step_readi m r
  | AStop =>
      Some (EvStop,
            mk_machine (reader_thread_stop (shared m)) (mu m) (cap m) (con m))
  | APollNull =>
      match con m with
      | CIdle => Some (EvPollReturn (-1) None, m)
      | _ => None
      end
  | APoll dst =>
      match con m with
      | CIdle =>
          if is_free m
          then Some (EvLock Consumer,
                     mk_machine (shared m) (Some Consumer) (cap m) (CLoop dst))
          else None
      | _ => None
      end
  | AConsumer => step_consumer m
  end.

(** The events of a schedule and the machine it ends in; [None] when
    some action of the schedule cannot happen. *)
Fixpoint run (m : machine) (acts : list action)
  : option (list event * machine) :=
  match acts with
  | [] => Some ([], m)
  | a :: acts' =>
      match step m a with
      | None => None
      | Some (e, m') =>
          match run m' acts' with
          | None => None
          | Some (es, m'') => Some (e :: es, m'')
          end
      end
  end.

(** The machine when [reader_thread_start] has returned [s]: the thread
    is created and has not run yet. *)
Definition init (s : reader_thread_state) : machine :=
  mk_machine s None PEntry CIdle.

(** The number of unread periods after some events, from [c] before
    them: line 82 queues one, a successful poll takes one, a poll that
    reports the overrun discards all. *)
Definition count_event (c : nat) (e : event) : nat :=
  match e with
  | EvClassified Publish _ => S c
  | EvPollLocked ret =>
      if ret =? 0 then Nat.pred c else if ret =? 1 then 0%nat else c
  | _ => c
  end.

Definition unread (c : nat) (es : list event) : nat :=
  fold_left count_event es c.

End Machine.

(** Two states with the same offsets, sizes and stop flag. *)
Definition same_geometry (s s' : reader_thread_state) : Prop :=
  head_offset s = head_offset s'
  /\ period_bytes s = period_bytes s'
  /\ buf_len s = buf_len s'
  /\ tail_offset s = tail_offset s'
  /\ stop s = stop s'.

(** A read that gave one whole period. *)
Definition full_period (pb : Z) (r : readi_result) : Prop :=
  0 <= rc r /\ Mem.len (written r) = pb.

(** What polls that succeed give back: the period, then what the
    destination held beyond it. *)
Definition delivered (pb : Z) (q dsts : list Mem.block)
  : list (Z * option Mem.block) :=
  map (fun qd => (0, Some (fst qd ++ skipn (Z.to_nat pb) (snd qd))))
      (combine q dsts).

(** ** Invariants of the two threads together *)

Module Inv.
Import Machine.

(** The mutex is owned by the capture thread exactly at the top of its
    loop, and by the consumer exactly at its wait loop test. *)
Definition lock_ok (m : machine) : Prop :=
  (mu m = Some Capture <-> cap m = PLoop)
  /\ (mu m = Some Consumer <-> exists d, con m = CLoop d).

(** What the capture thread holds in [ptr] and [next_offset] during its
    read, with head slot [hi] and tail slot [ti]: the head slot and the
    one after it; and the overrun is marked when that one is the tail. *)
Definition pending_ok (pb n : Z) (p : capture_pc) (s : reader_thread_state)
    (hi ti : Z) : Prop :=
  match p with
  | PReadi ptr next =>
      ptr = pb * hi /\ next = pb * slot n hi 1
      /\ (slot n hi 1 = ti -> overrun s = true)
  | PRelock next _ =>
      next = pb * slot n hi 1 /\ (slot n hi 1 = ti -> overrun s = true)
  | _ => True
  end.

(** With [c] periods unread: the head is [c] slots after the tail, and
    [c] is less than the number of slots. *)
Definition ring_inv_at (pb n : Z) (c : nat) (p : capture_pc)
    (s : reader_thread_state) : Prop :=
  exists hi ti,
    ring_ok pb n s hi ti
    /\ hi = slot n ti (Z.of_nat c)
    /\ Z.of_nat c < n
    /\ pending_ok pb n p s hi ti.

Definition ring_inv (pb n : Z) (c : nat) (m : machine) : Prop :=
  ring_inv_at pb n c (cap m) (shared m).

(** After a fatal read error: the loop is stopped and the capture
    thread is at its loop test or gone. *)
Definition err_ok (m : machine) : Prop :=
  error (shared m) = true ->
  stop (shared m) = true /\ (cap m = PLoop \/ cap m = PExit).

(** The machine after a fatal read error. *)
Definition failed (m : machine) : Prop :=
  error (shared m) = true /\ stop (shared m) = true
  /\ (cap m = PLoop \/ cap m = PExit).

(** Events that do not occur once [error] is set: the device is not
    read, no read is classified, the consumer enters no wait, and the
    locked part of a poll gives -1. *)
Definition quiet (e : event) : Prop :=
  match e with
  | EvUnlockRead _ _ | EvRead _ | EvClassified _ _ | EvWait => False
  | EvPollLocked ret => ret = -1
  | _ => True
  end.

Definition returns_error (e : event) : Prop :=
  match e with
  | EvPollReturn ret _ => ret = -1
  | _ => True
  end.

(** No call of [reader_thread_poll] is past its locked part with a
    return value other than -1. *)
Definition settled (m : machine) : Prop :=
  match con m with
  | CCopy ret _ _ => ret = -1
  | _ => True
  end.

End Inv.

(** ** Small instances

    A ring of four slots of two bytes, in a block that [malloc] hands out
    filled with [0xff]. *)

Definition ex_libc : libc :=
  mk_libc true (fun n => Some (repeat xff (Z.to_nat n))) 0.

Definition ex_s0 : reader_thread_state :=
  mk_state (repeat xff 8) 0 0 1 2 8 false false false.

Definition ex_r1 : readi_result := mk_readi 1 [x01; x02].
Definition ex_r2 : readi_result := mk_readi 1 [x03; x04].

Definition ex_dst : Mem.block := [x00; x00; x00].

(** The same ring with three periods queued and none taken, as the
    capture thread finds it at the top of its loop. *)
Definition ex_full : reader_thread_state :=
  mk_state [x01; x02; x03; x04; x05; x06; xff; xff] 6 0 1 2 8
           false false false.

(** One period read and queued, then taken by a poll. *)
Definition ex_schedule : list Machine.action :=
  [Machine.ACapture; Machine.ACapture; Machine.AReadi ex_r1;
   Machine.ACapture; Machine.ACapture;
   Machine.APoll ex_dst; Machine.AConsumer; Machine.AConsumer].

(** Three periods read and queued with no poll; the thread stands in its
    fourth read, the overrun marked. *)
Definition ex_schedule_full : list Machine.action :=
  [Machine.ACapture; Machine.ACapture;
   Machine.AReadi ex_r1; Machine.ACapture; Machine.ACapture;
   Machine.AReadi ex_r2; Machine.ACapture; Machine.ACapture;
   Machine.AReadi (mk_readi 1 [x05; x06]); Machine.ACapture; Machine.ACapture].

(** Then a poll, before the fourth read returns and is classified. *)
Definition ex_schedule_poll_in_read : list Machine.action :=
  [Machine.APoll ex_dst; Machine.AConsumer; Machine.AConsumer;
   Machine.AReadi (mk_readi 1 [x07; x08]); Machine.ACapture].

(** A read that fails for good, seen by the capture thread. *)
Definition ex_schedule_error : list Machine.action :=
  [Machine.ACapture; Machine.ACapture; Machine.AReadi (mk_readi (-5) []);
   Machine.ACapture].

(** Then the thread leaves its loop, and a poll. *)
Definition ex_schedule_after : list Machine.action :=
  [Machine.ACapture; Machine.APoll ex_dst; Machine.AConsumer;
   Machine.AConsumer].

(** A poll during the first read, the read, and a poll after it. *)
Definition ex_schedule_poll_one_slot : list Machine.action :=
  [Machine.ACapture; Machine.ACapture; Machine.APoll ex_dst;
   Machine.AConsumer; Machine.AConsumer; Machine.AReadi ex_r1;
   Machine.ACapture; Machine.ACapture; Machine.APoll ex_dst;
   Machine.AConsumer; Machine.AConsumer].

(** Five turns of read and poll on a ring of four slots or fewer: the
    offsets wrap around. *)
Definition ex_turns : list (readi_result * Mem.block) :=
  [(ex_r1, ex_dst); (ex_r2, ex_dst); (mk_readi 1 [x05; x06], ex_dst);
   (mk_readi 1 [x07; x08], ex_dst); (mk_readi 1 [x09; x0a], ex_dst)].

(** ** Further schedules and bookkeeping

    Definitions for the properties that follow the claims. *)

Module Ghost.
Import Machine.

(** The unread periods themselves, oldest first, followed along the
    events: line 82 queues the bytes that stand in the head slot of the
    state [s] it runs in, a successful poll takes the oldest, a poll that
    reports the overrun discards all. *)
Definition queue_event (s : reader_thread_state) (q : list Mem.block)
    (e : event) : list Mem.block :=
  match e with
  | EvClassified Publish _ =>
      q ++ [Mem.load (buf s) (head_offset s) (period_bytes s)]
  | EvPollLocked ret =>
      if ret =? 0 then tl q else if ret =? 1 then [] else q
  | _ => q
  end.

(** A schedule run with the unread periods followed from [q]. *)
Fixpoint run_queue (m : machine) (q : list Mem.block) (acts : list action)
  : option (list Mem.block * machine) :=
  match acts with
  | [] => Some (q, m)
  | a :: acts' =>
      match step m a with
      | None => None
      | Some (e, m') => run_queue m' (queue_event (shared m) q e) acts'
      end
  end.

(** The ring invariant with the unread periods [q] standing in the slots
    from the tail on. *)
Definition fifo_inv (pb n : Z) (q : list Mem.block) (m : machine) : Prop :=
  Inv.ring_inv pb n (length q) m
  /\ forall hi ti,
      ring_ok pb n (shared m) hi ti -> holds pb n (buf (shared m)) ti q.

(** The source of a copy that is still to be done lies in the buffer. *)
Definition copy_ok (pb n : Z) (m : machine) : Prop :=
  match con m with
  | CCopy _ (Some src) _ => exists k, 0 <= k < n /\ src = pb * k
  | _ => True
  end.

(** Line 65 reached: a device read begins. *)
Definition begins_read (e : event) : bool :=
  match e with EvUnlockRead _ _ => true | _ => false end.

(** Line 66 has returned. *)
Definition ends_read (e : event) : bool :=
  match e with EvRead _ => true | _ => false end.

(** The locked part of a poll that moves [tail_offset]. *)
Definition takes_or_discards (e : event) : bool :=
  match e with
  | EvPollLocked ret => (ret =? 0) || (ret =? 1)
  | _ => false
  end.

(** Line 82: a period is queued. *)
Definition queues (e : event) : bool :=
  match e with EvClassified Publish _ => true | _ => false end.

(** The capture thread stands in [snd_pcm_readi] or between its return
    and the lock of line 67. *)
Definition in_or_after_read (p : capture_pc) : bool :=
  match p with PReadi _ _ | PRelock _ _ => true | _ => false end.

(** Between line 118 and the copy of lines 119-121: anything but the
    return of a device read, and the consumer's own next move. *)
Definition outside_read (a : action) : bool :=
  match a with
  | AReadi _ | AConsumer => false
  | _ => true
  end.

(** A ring of one slot ([bufcount = 1]): both offsets are 0, and so is
    the [next_offset] the capture thread holds. *)
Definition one_slot (m : machine) : Prop :=
  head_offset (shared m) = 0 /\ tail_offset (shared m) = 0
  /\ buf_len (shared m) = CInt.mul (period_bytes (shared m)) 1
  /\ match cap m with
     | PReadi _ nxt => nxt = 0
     | PRelock nxt _ => nxt = 0
     | _ => True
     end.

Definition delivers (e : event) : bool :=
  match e with EvPollLocked ret => ret =? 0 | _ => false end.

End Ghost.

(** ** The loop test and [reader_thread_stop]

    [reader_thread_stop] writes [stop] without the mutex (line 169), so
    the write can fall between the test of line 54 and the unlock of
    line 65, which [Machine] takes as one step.  Here the two are apart:
    the capture thread tests [stop] at [FTest] and then does lines 55-65
    at [FHead], whatever [stop] has become in between.  The write of
    line 169 and the read of line 54 are each one access to memory, seen
    in the order in which they happen.  The consumer, the stop and the
    other places of the capture thread are those of [Machine]. *)

Module Fine.

(** Lines 55-64, the test of line 54 passed. *)
Definition loop_head_passed (s : reader_thread_state)
  : reader_thread_state * (Z * Z) :=
  let ptr := head_offset s in
  let next_offset := next_offset s in
  let s := if next_offset =? tail_offset s then set_overrun s true else s in
  (s, (ptr, next_offset)).

Inductive capture_pc : Type :=
| FEntry                             (* line 53, before pthread_mutex_lock *)
| FTest                              (* line 54, the loop test *)
| FHead                              (* lines 55-65, the test passed *)
| FReadi (ptr next_offset : Z)       (* line 66, in snd_pcm_readi *)
| FRelock (next_offset rc : Z)       (* line 67, before pthread_mutex_lock *)
| FExit.                             (* line 87 *)

Definition coarse_pc (p : capture_pc) : Machine.capture_pc :=
  match p with
  | FEntry => Machine.PEntry
  | FTest | FHead => Machine.PLoop
  | FReadi ptr next_offset => Machine.PReadi ptr next_offset
  | FRelock next_offset rc => Machine.PRelock next_offset rc
  | FExit => Machine.PExit
  end.

Record machine : Type := mk_machine {
  shared : reader_thread_state;
  mu : option Machine.thread;
  cap : capture_pc;
  con : Machine.consumer_pc
}.

(** The same state with lines 54-65 taken as one place. *)
Definition coarse (m : machine) : Machine.machine :=
  Machine.mk_machine (shared m) (mu m) (coarse_pc (cap m)) (con m).

Inductive event : Type :=
| EvTestPassed                       (* line 54 found stop clear *)
| Ev (e : Machine.event).

Definition is_free (m : machine) : bool :=
  match mu m with None => true | Some _ => false end.

Definition step_capture (m : machine) : option (event * machine) :=
  let s := shared m in
  match cap m with
  | FEntry =>
      if is_free m
      then Some (Ev (Machine.EvLock Machine.Capture),
                 mk_machine s (Some Machine.Capture) FTest (con m))
      else None
  | FTest =>
      if stop s
      then Some (Ev Machine.EvExit, mk_machine s None FExit (con m))
      else Some (EvTestPassed, mk_machine s (mu m) FHead (con m))
  | FHead =>
      let '(s', (ptr, next_offset)) := loop_head_passed s in
      Some (Ev (Machine.EvUnlockRead ptr next_offset),
            mk_machine s' None (FReadi ptr next_offset) (con m))
  | FReadi _ _ => None
  | FRelock next_offset rc =>
      if is_free m then
        let (s', es) := loop_tail s next_offset rc in
        Some (Ev (Machine.EvClassified (classify s rc) es),
              mk_machine s' (Some Machine.Capture) FTest (con m))
      else None
  | FExit => None
  end.

Definition step_readi (m : machine) (r : readi_result)
  : option (event * machine) :=
  let s := shared m in
  match cap m with
  | FReadi ptr next_offset =>
      if Mem.len (written r) <=? period_bytes s then
        Some (Ev (Machine.EvRead r),
              mk_machine (snd_pcm_readi s ptr r) (mu m)
                         (FRelock next_offset (rc r)) (con m))
      else None
  | _ => None
  end.

(** The stop and the consumer move as in [Machine]; they leave the
    capture thread where it stands. *)
Definition step_other (m : machine) (a : Machine.action)
  : option (event * machine) :=
  match Machine.step (coarse m) a with
  | Some (e, b) =>
      Some (Ev e, mk_machine (Machine.shared b) (Machine.mu b) (cap m)
                             (Machine.con b))
  | None => None
  end.

Definition step (m : machine) (a : Machine.action)
  : option (event * machine) :=
  match a with
  | Machine.ACapture => step_capture m
  | Machine.AReadi r => step_readi m r
  | _ => step_other m a
  end.

Fixpoint run (m : machine) (acts : list Machine.action)
  : option (list event * machine) :=
  match acts with
  | [] => Some ([], m)
  | a :: acts' =>
      match step m a with
      | None => None
      | Some (e, m') =>
          match run m' acts' with
          | None => None
          | Some (es, m'') => Some (e :: es, m'')
          end
      end
  end.

Definition init (s : reader_thread_state) : machine :=
  mk_machine s None FEntry Machine.CIdle.

Definition begins_read (e : event) : bool :=
  match e with Ev e0 => Ghost.begins_read e0 | EvTestPassed => false end.

Definition ends_read (e : event) : bool :=
  match e with Ev e0 => Ghost.ends_read e0 | EvTestPassed => false end.

(** The reads the thread is bound to begin whatever [stop] is: one when
    it has passed the loop test. *)
Definition reads_to_begin (m : machine) : nat :=
  match cap m with FHead => 1 | _ => 0 end.

(** The reads bound to return: the one under way, or the one to begin. *)
Definition reads_to_end (m : machine) : nat :=
  match cap m with FHead | FReadi _ _ => 1 | _ => 0 end.

(** What is left for the capture thread to do once [stop] is set, with
    [r] the result of the read under way or still to begin. *)
Definition finish_schedule (p : capture_pc) (r : readi_result)
  : list Machine.action :=
  match p with
  | FEntry => [Machine.ACapture; Machine.ACapture]
  | FTest => [Machine.ACapture]
  | FHead => [Machine.ACapture; Machine.AReadi r; Machine.ACapture;
              Machine.ACapture]
  | FReadi _ _ => [Machine.AReadi r; Machine.ACapture; Machine.ACapture]
  | FRelock _ _ => [Machine.ACapture; Machine.ACapture]
  | FExit => []
  end.

End Fine.

(** The capture thread and the consumer taking turns, with no other thread
    in between: each read returns and is classified, the thread goes into
    its next read, and one poll follows.  The return value and the
    destination of every poll; a poll that waits, or a thread that has
    left its loop, ends the sequence. *)
Fixpoint stream (s : reader_thread_state) (ptr next_offset : Z)
    (rds : list (readi_result * Mem.block))
  : list (Z * option Mem.block) :=
  match rds with
  | [] => []
  | (r, d) :: rds' =>
      match capture_reads s ptr next_offset [r] with
      | (s1, Some (ptr', next_offset')) =>
          match reader_thread_poll s1 (Some d) with
          | Returns ret s2 d' _ => (ret, d') :: stream s2 ptr' next_offset' rds'
          | Waits => []
          end
      | (_, None) => []
      end
  end.

(** [reader_thread_error] after [reader_thread_start], from its value
    [cur] before the call. *)
Definition start_error_string (cur : string) (e : libc)
    (bytes frames bufcount : Z) : string :=
  error_string_after cur (snd (reader_thread_start e bytes frames bufcount)).

(** * Properties *)

(** ** C [int] arithmetic without overflow *)

Module CIntFacts.

Lemma wrap_in_range (z : Z) : CInt.in_range z -> CInt.wrap z = z.
Proof.
  unfold CInt.in_range, CInt.INT_MIN, CInt.INT_MAX, CInt.wrap. intros H.
  rewrite Z.mod_small by lia. lia.
Qed.

Lemma add_in_range (a b : Z) :
  CInt.in_range (a + b) -> CInt.add a b = a + b.
Proof. apply wrap_in_range. Qed.

Lemma mul_in_range (a b : Z) :
  CInt.in_range (a * b) -> CInt.mul a b = a * b.
Proof. apply wrap_in_range. Qed.

End CIntFacts.

(** ** Loads and stores in a block *)

Module MemFacts.
Import Mem.

Lemma len_nonneg (b : block) : 0 <= len b.
Proof. unfold len. lia. Qed.

Lemma len_store (b : block) (off : Z) (data : block) :
  0 <= off -> off + len data <= len b -> len (store b off data) = len b.
Proof.
  unfold len, store. intros H0 H1.
  rewrite !length_app, length_firstn, length_skipn. lia.
Qed.

Lemma len_load (b : block) (off n : Z) :
  0 <= off -> 0 <= n -> off + n <= len b -> len (load b off n) = n.
Proof.
  unfold len, load. intros H0 H1 H2.
  rewrite length_firstn, length_skipn. lia.
Qed.

(** Reading back what was just written. *)
Lemma load_store_same (b : block) (off : Z) (data : block) :
  0 <= off -> off + len data <= len b ->
  load (store b off data) off (len data) = data.
Proof.
  unfold len, load, store. intros H0 H1.
  rewrite skipn_app, length_firstn.
  replace (Init.Nat.min (Z.to_nat off) (length b)) with (Z.to_nat off) by lia.
  rewrite Nat.sub_diag. simpl skipn at 2.
  rewrite skipn_firstn_comm, Nat.sub_diag. simpl.
  rewrite Nat2Z.id, firstn_app, Nat.sub_diag, firstn_all. simpl.
  apply app_nil_r.
Qed.

(** A write leaves every range before it unchanged. *)
Lemma load_store_before (b : block) (off : Z) (data : block) (o n : Z) :
  0 <= o -> 0 <= n -> o + n <= off -> off <= len b ->
  load (store b off data) o n = load b o n.
Proof.
  unfold len, load, store. intros H0 H1 H2 H3.
  rewrite skipn_app, length_firstn.
  replace (Z.to_nat o - Init.Nat.min (Z.to_nat off) (length b))%nat with 0%nat by lia.
  simpl skipn at 2.
  rewrite firstn_app, length_skipn, length_firstn.
  replace (Z.to_nat n - (Init.Nat.min (Z.to_nat off) (length b) - Z.to_nat o))%nat
    with 0%nat by lia.
  simpl. rewrite app_nil_r.
  rewrite skipn_firstn_comm, firstn_firstn.
  replace (Init.Nat.min (Z.to_nat n) (Z.to_nat off - Z.to_nat o)) with (Z.to_nat n) by lia.
  reflexivity.
Qed.

(** A write leaves every range after it unchanged. *)
Lemma load_store_after (b : block) (off : Z) (data : block) (o n : Z) :
  0 <= off -> off + len data <= o -> off + len data <= len b ->
  load (store b off data) o n = load b o n.
Proof.
  unfold len, load, store. intros H0 H1 H2. f_equal.
  rewrite app_assoc, skipn_app, length_app, length_firstn.
  replace (Init.Nat.min (Z.to_nat off) (length b)) with (Z.to_nat off) by lia.
  rewrite skipn_all2 by (rewrite length_app, length_firstn; lia).
  simpl. rewrite skipn_skipn. f_equal. lia.
Qed.

End MemFacts.

(** ** Slot arithmetic *)

Section Slots.

Variable n : Z.
Hypothesis Hn : 2 <= n.

Lemma slot_range (i j : Z) :
  0 <= i < n -> 0 <= j <= n -> 0 <= slot n i j < n.
Proof. unfold slot. intros. destruct (Z.ltb_spec (i + j) n); lia. Qed.

Lemma slot_0 (i : Z) : 0 <= i < n -> slot n i 0 = i.
Proof. unfold slot. intros. destruct (Z.ltb_spec (i + 0) n); lia. Qed.

Lemma slot_slot_1 (i j : Z) :
  0 <= i < n -> 0 <= j < n -> slot n (slot n i 1) j = slot n i (j + 1).
Proof.
  unfold slot. intros.
  destruct (Z.ltb_spec (i + 1) n), (Z.ltb_spec (i + (j + 1)) n);
    try destruct (Z.ltb_spec (i + 1 + j) n);
    try destruct (Z.ltb_spec (i + 1 - n + j) n); lia.
Qed.

Lemma slot_1_slot (i j : Z) :
  0 <= i < n -> 0 <= j < n -> slot n (slot n i j) 1 = slot n i (j + 1).
Proof.
  unfold slot. intros.
  destruct (Z.ltb_spec (i + j) n), (Z.ltb_spec (i + (j + 1)) n);
    try destruct (Z.ltb_spec (i + j + 1) n);
    try destruct (Z.ltb_spec (i + j - n + 1) n); lia.
Qed.

Lemma slot_1_inj (i j : Z) :
  0 <= i < n -> 0 <= j < n -> slot n i 1 = slot n j 1 -> i = j.
Proof.
  unfold slot. intros.
  destruct (Z.ltb_spec (i + 1) n), (Z.ltb_spec (j + 1) n); lia.
Qed.

Lemma slot_eq_start (i j : Z) :
  0 <= i < n -> 0 <= j <= n -> (slot n i j = i <-> j = 0 \/ j = n).
Proof.
  unfold slot. intros. destruct (Z.ltb_spec (i + j) n); lia.
Qed.

End Slots.

(** Offsets of distinct slots are distinct. *)
Lemma offset_inj (pb i j : Z) : 0 < pb -> (pb * i = pb * j <-> i = j).
Proof. intros Hpb. split; intros; [nia | subst; reflexivity]. Qed.

Lemma offset_eqb (pb i j : Z) : 0 < pb -> (pb * i =? pb * j) = (i =? j).
Proof.
  intros Hpb. destruct (Z.eqb_spec i j) as [->|Hne]; [apply Z.eqb_refl|].
  apply Z.eqb_neq. intros H. apply Hne. nia.
Qed.

Section Ring.

Variables pb n : Z.
Hypothesis Hpb : 0 < pb.
Hypothesis Hn : 2 <= n.
Hypothesis Hmax : pb * n <= CInt.INT_MAX.

Lemma offset_bounds (i : Z) :
  0 <= i < n -> 0 <= pb * i /\ pb * i + pb <= pb * n.
Proof. intros. nia. Qed.

(** The two places where the code steps an offset (lines 56-60 and
    113-116) move it to the next slot. *)
Lemma next_offset_slot (i : Z) :
  0 <= i < n ->
  (let x := CInt.add (pb * i) pb in if x >=? pb * n then 0 else x)
  = pb * slot n i 1.
Proof.
  intros Hi. cbv zeta.
  assert (Hb := offset_bounds Hi).
  rewrite CIntFacts.add_in_range
    by (unfold CInt.in_range, CInt.INT_MIN, CInt.INT_MAX in *; lia).
  unfold slot.
  destruct (Z.geb_spec (pb * i + pb) (pb * n)), (Z.ltb_spec (i + 1) n); nia.
Qed.

End Ring.

(** ** The pieces of the two functions on a well-formed ring *)

Section Steps.

Variables pb n : Z.
Hypothesis Hpb : 0 < pb.
Hypothesis Hn : 2 <= n.
Hypothesis Hmax : pb * n <= CInt.INT_MAX.

Lemma next_offset_ok (s : reader_thread_state) (hi ti : Z) :
  ring_ok pb n s hi ti -> next_offset s = pb * slot n hi 1.
Proof.
  intros [Hp Hl _ Hh _ Hhi _]. unfold next_offset.
  rewrite Hp, Hl, Hh. apply next_offset_slot; assumption.
Qed.

Lemma loop_head_running (s : reader_thread_state) (hi ti : Z) :
  ring_ok pb n s hi ti -> stop s = false ->
  loop_head s =
    ((if slot n hi 1 =? ti then set_overrun s true else s),
     Some (pb * hi, pb * slot n hi 1)).
Proof.
  intros Hok Hstop. unfold loop_head. rewrite Hstop.
  rewrite (next_offset_ok Hok).
  rewrite (ok_tail Hok), (ok_head Hok), offset_eqb by assumption. reflexivity.
Qed.

Lemma poll_locked_success (s : reader_thread_state) (hi ti : Z) :
  ring_ok pb n s hi ti -> error s = false -> overrun s = false ->
  poll_locked s = (0, Some (pb * ti), set_tail_offset s (pb * slot n ti 1)).
Proof.
  intros [Hp Hl _ _ Ht _ Hti] He Ho. unfold poll_locked.
  rewrite He, Ho, Hp, Hl, Ht.
  rewrite next_offset_slot by assumption. reflexivity.
Qed.

Lemma ring_ok_set_overrun s hi ti b :
  ring_ok pb n s hi ti -> ring_ok pb n (set_overrun s b) hi ti.
Proof. intros []; constructor; assumption. Qed.

Lemma ring_ok_set_stop s hi ti b :
  ring_ok pb n s hi ti -> ring_ok pb n (set_stop s b) hi ti.
Proof. intros []; constructor; assumption. Qed.

Lemma ring_ok_set_error s hi ti b :
  ring_ok pb n s hi ti -> ring_ok pb n (set_error s b) hi ti.
Proof. intros []; constructor; assumption. Qed.

Lemma ring_ok_set_head s hi ti hi' :
  ring_ok pb n s hi ti -> 0 <= hi' < n ->
  ring_ok pb n (set_head_offset s (pb * hi')) hi' ti.
Proof. intros [] ?; constructor; simpl; auto. Qed.

Lemma ring_ok_set_tail s hi ti ti' :
  ring_ok pb n s hi ti -> 0 <= ti' < n ->
  ring_ok pb n (set_tail_offset s (pb * ti')) hi ti'.
Proof. intros [] ?; constructor; simpl; auto. Qed.

(** The device writing at most one period at the head slot. *)
Lemma ring_ok_readi s hi ti r :
  ring_ok pb n s hi ti -> Mem.len (written r) <= pb ->
  ring_ok pb n (snd_pcm_readi s (pb * hi) r) hi ti.
Proof.
  intros [Hp Hl Hb Hh Ht Hhi Hti] Hr; constructor; simpl; auto.
  assert (Hx : 0 <= pb * hi /\ pb * hi + pb <= pb * n) by (apply offset_bounds; assumption).
  rewrite MemFacts.len_store; lia.
Qed.

End Steps.

(** ** Periods standing in the ring *)

Section Queue.

Variables pb n : Z.
Hypothesis Hpb : 0 < pb.
Hypothesis Hn : 2 <= n.
Hypothesis Hmax : pb * n <= CInt.INT_MAX.

Local Abbreviation zlen l := (Z.of_nat (length l)).

Lemma zlen_cons (A : Type) (x : A) (l : list A) : zlen (x :: l) = zlen l + 1.
Proof. simpl length. lia. Qed.

(** A write of at most one period at slot [i] leaves slot [j] alone. *)
Lemma load_store_other_slot (b data : Mem.block) (i j : Z) :
  0 <= i < n -> 0 <= j < n -> i <> j ->
  Mem.len b = pb * n -> Mem.len data <= pb ->
  Mem.load (Mem.store b (pb * i) data) (pb * j) pb = Mem.load b (pb * j) pb.
Proof.
  intros Hi Hj Hij Hb Hd.
  assert (H0 := MemFacts.len_nonneg data).
  destruct (Z.lt_ge_cases j i).
  - apply MemFacts.load_store_before; nia.
  - apply MemFacts.load_store_after; nia.
Qed.

Lemma holds_store (q : list Mem.block) :
  forall (b data : Mem.block) (ti : Z),
    0 <= ti < n -> zlen q < n ->
    Mem.len b = pb * n -> Mem.len data <= pb ->
    holds pb n b ti q ->
    holds pb n (Mem.store b (pb * slot n ti (zlen q)) data) ti q.
Proof.
  induction q as [|d q IH]; intros b data ti Hti Hq Hb Hd Hh; [exact I|].
  rewrite zlen_cons in *.
  cbn [holds] in Hh |- *. destruct Hh as [Hfront Hrest].
  assert (Hs1 : 0 <= slot n ti 1 < n) by (apply slot_range; lia).
  assert (Hsq : 0 <= slot n ti (zlen q + 1) < n) by (apply slot_range; lia).
  split.
  - rewrite load_store_other_slot; try assumption.
    intros Heq. apply slot_eq_start in Heq; lia.
  - rewrite <- slot_slot_1 by lia.
    apply IH; try assumption. lia.
Qed.

Lemma holds_snoc (q : list Mem.block) :
  forall (b d : Mem.block) (ti : Z),
    0 <= ti < n -> zlen q < n ->
    holds pb n b ti q ->
    Mem.load b (pb * slot n ti (zlen q)) pb = d ->
    holds pb n b ti (q ++ [d]).
Proof.
  induction q as [|d0 q IH]; intros b d ti Hti Hq Hh Hd.
  - cbn [holds app length] in *. rewrite slot_0 in Hd by assumption. auto.
  - rewrite zlen_cons in *.
    cbn [holds app] in Hh |- *. destruct Hh as [Hfront Hrest].
    split; [assumption|].
    assert (Hs1 : 0 <= slot n ti 1 < n) by (apply slot_range; lia).
    apply IH; try assumption; try lia.
    rewrite slot_slot_1 by lia. assumption.
Qed.

End Queue.

(** ** The capture thread alone, then the consumer alone *)

Section Fifo.

Variables pb n : Z.
Hypothesis Hpb : 0 < pb.
Hypothesis Hn : 2 <= n.
Hypothesis Hmax : pb * n <= CInt.INT_MAX.

Local Abbreviation zlen l := (Z.of_nat (length l)).

Lemma classify_publish (s : reader_thread_state) (c : Z) :
  0 <= c -> overrun s = false -> classify s c = Publish.
Proof.
  intros Hc Ho. unfold classify.
  replace (c =? - EPIPE) with false
    by (symmetry; apply Z.eqb_neq; unfold EPIPE; lia).
  replace (c <? 0) with false by (symmetry; apply Z.ltb_ge; lia).
  rewrite Ho. reflexivity.
Qed.

(** While fewer than [n - 1] periods are queued, whole periods read one
    after the other are queued behind those already there, and no flag
    is raised. *)
Lemma capture_reads_publishes (rs : list readi_result) :
  forall (s : reader_thread_state) (ti : Z) (q : list Mem.block),
    ring_ok pb n s (slot n ti (zlen q)) ti ->
    stop s = false -> overrun s = false ->
    zlen q + zlen rs < n - 1 ->
    Forall (full_period pb) rs ->
    holds pb n (buf s) ti q ->
    exists s',
      capture_reads s (pb * slot n ti (zlen q))
                    (pb * slot n ti (zlen q + 1)) rs
      = (s', Some (pb * slot n ti (zlen q + zlen rs),
                   pb * slot n ti (zlen q + zlen rs + 1)))
      /\ ring_ok pb n s' (slot n ti (zlen q + zlen rs)) ti
      /\ stop s' = false /\ overrun s' = false /\ error s' = error s
      /\ holds pb n (buf s') ti (q ++ map written rs).
Proof.
  induction rs as [|r rs IH]; intros s ti q Hok Hstop Hov Hlen Hrs Hq.
  - exists s. cbn [capture_reads length map]. rewrite app_nil_r.
    replace (zlen q + Z.of_nat 0) with (zlen q) by lia.
    repeat split; assumption || reflexivity || apply Hok.
  - rewrite zlen_cons in *.
    apply Forall_cons_iff in Hrs. destruct Hrs as [[Hrc Hw] Hrs].
    assert (Hti := ok_ti Hok).
    assert (Hhi := ok_hi Hok).
    cbn [capture_reads].
    set (s1 := snd_pcm_readi s (pb * slot n ti (zlen q)) r).
    assert (Hok1 : ring_ok pb n s1 (slot n ti (zlen q)) ti)
      by (apply ring_ok_readi; try assumption; lia).
    unfold loop_tail. rewrite classify_publish by assumption. cbn [fst].
    set (s2 := set_head_offset s1 (pb * slot n ti (zlen q + 1))).
    assert (Hr1 : 0 <= slot n ti (zlen q + 1) < n) by (apply slot_range; lia).
    assert (Hok2 : ring_ok pb n s2 (slot n ti (zlen q + 1)) ti)
      by (apply ring_ok_set_head with (hi := slot n ti (zlen q)); assumption).
    rewrite loop_head_running
      with (pb := pb) (n := n) (hi := slot n ti (zlen q + 1)) (ti := ti)
      by (assumption || reflexivity).
    rewrite slot_1_slot by lia.
    assert (Hne : slot n ti (zlen q + 1 + 1) <> ti)
      by (intros Heq; apply slot_eq_start in Heq; lia).
    apply Z.eqb_neq in Hne. rewrite Hne.
    destruct (IH s2 ti (q ++ [written r])) as [s' Hs'].
    + rewrite length_app. cbn [length].
      replace (Z.of_nat (length q + 1)) with (zlen q + 1) by lia. assumption.
    + exact Hstop.
    + exact Hov.
    + rewrite length_app. cbn [length]. lia.
    + assumption.
    + apply holds_snoc; try assumption; try lia.
      * unfold s2, s1. cbn [buf set_head_offset snd_pcm_readi set_buf].
        apply holds_store; try assumption; try lia. apply (ok_buf Hok).
      * unfold s2, s1. cbn [buf set_head_offset snd_pcm_readi set_buf].
        assert (Hx : 0 <= pb * slot n ti (zlen q)
                     /\ pb * slot n ti (zlen q) + pb <= pb * n)
          by (apply offset_bounds; assumption).
        rewrite <- Hw at 3.
        apply MemFacts.load_store_same; [lia|]. rewrite (ok_buf Hok). lia.
    + rewrite length_app in Hs'. cbn [length] in Hs'.
      replace (Z.of_nat (length q + 1)) with (zlen q + 1) in Hs' by lia.
      replace (zlen q + (zlen rs + 1)) with (zlen q + 1 + zlen rs) by lia.
      exists s'. cbn [map]. rewrite <- app_assoc in Hs'. cbn [app] in Hs'.
      exact Hs'.
Qed.

Lemma poll_must_wait_iff (s : reader_thread_state) (hi ti : Z) :
  ring_ok pb n s hi ti -> overrun s = false -> error s = false ->
  poll_must_wait s = (hi =? ti).
Proof.
  intros Hok Ho He. unfold poll_must_wait.
  rewrite Ho, He, (ok_head Hok), (ok_tail Hok).
  rewrite offset_eqb by assumption. apply andb_true_r.
Qed.

(** With no flag raised, polls take the queued periods oldest first and
    leave the ring empty. *)
Lemma poll_seq_drains (q : list Mem.block) :
  forall (s : reader_thread_state) (ti : Z) (dsts : list Mem.block),
    ring_ok pb n s (slot n ti (zlen q)) ti ->
    overrun s = false -> error s = false ->
    zlen q < n -> length dsts = length q ->
    holds pb n (buf s) ti q ->
    exists s',
      poll_seq s dsts = (delivered pb q dsts, s')
      /\ ring_ok pb n s' (slot n ti (zlen q)) (slot n ti (zlen q))
      /\ overrun s' = false /\ error s' = false /\ stop s' = stop s
      /\ buf s' = buf s.
Proof.
  induction q as [|d q IH]; intros s ti dsts Hok Ho He Hlen Hd Hq.
  - destruct dsts; [|discriminate]. exists s.
    cbn [poll_seq delivered combine map length] in *.
    change (Z.of_nat 0) with 0 in *.
    assert (Hti := ok_ti Hok). rewrite slot_0 in Hok |- * by assumption.
    repeat split; assumption || reflexivity || apply Hok.
  - destruct dsts as [|dst dsts]; [discriminate|].
    rewrite zlen_cons in *. cbn [length] in Hd. injection Hd as Hd.
    cbn [holds] in Hq. destruct Hq as [Hfront Hrest].
    assert (Hti := ok_ti Hok).
    assert (Hs1 : 0 <= slot n ti 1 < n) by (apply slot_range; lia).
    cbn [poll_seq reader_thread_poll].
    rewrite poll_must_wait_iff with (hi := slot n ti (zlen q + 1)) (ti := ti)
      by assumption.
    assert (Hne : slot n ti (zlen q + 1) <> ti)
      by (intros Heq; apply slot_eq_start in Heq; lia).
    apply Z.eqb_neq in Hne. rewrite Hne.
    rewrite poll_locked_success
      with (pb := pb) (n := n) (hi := slot n ti (zlen q + 1)) (ti := ti)
      by assumption.
    set (s1 := set_tail_offset s (pb * slot n ti 1)).
    destruct (IH s1 (slot n ti 1) dsts) as [s' [Hp Hs']];
      try assumption; try lia.
    + rewrite slot_slot_1 by lia.
      apply ring_ok_set_tail with (ti := ti); assumption.
    + rewrite Hp. exists s'.
      rewrite slot_slot_1 in Hs' by lia.
      split; [|exact Hs'].
      unfold delivered. cbn [combine map fst snd]. do 3 f_equal.
      unfold poll_copy, Mem.memcpy, s1.
      cbn [Z.eqb buf period_bytes set_tail_offset].
      rewrite (ok_period_bytes Hok), Hfront. reflexivity.
Qed.

(** From an empty ring with no flag raised and the capture thread in
    its read: fewer than [n - 1] whole periods, then as many polls. *)
Lemma fifo_from_empty (s : reader_thread_state) (ti : Z)
    (rs : list readi_result) (dsts : list Mem.block) :
  ring_ok pb n s ti ti ->
  stop s = false -> overrun s = false -> error s = false ->
  zlen rs < n - 1 ->
  Forall (full_period pb) rs ->
  length dsts = length rs ->
  fst (poll_seq (fst (capture_reads s (pb * ti) (pb * slot n ti 1) rs)) dsts)
  = delivered pb (map written rs) dsts.
Proof.
  intros Hok Hstop Hov Herr HN Hrs Hd.
  assert (Hti := ok_ti Hok).
  destruct (@capture_reads_publishes rs s ti [])
    as [s1 [Hcap [Hok1 [_ [Hov1 [Herr1 Hq1]]]]]]; try assumption.
  - cbn [length]. change (Z.of_nat 0) with 0. rewrite slot_0 by lia. assumption.
  - exact I.
  - cbn [length app] in *. change (Z.of_nat 0) with 0 in *.
    rewrite slot_0 in Hcap by lia. change (0 + 1) with 1 in Hcap.
    rewrite Hcap. cbn [fst].
    destruct (@poll_seq_drains (map written rs) s1 ti dsts)
      as [s2 [Hp _]]; rewrite ?length_map; try assumption; try lia;
      try congruence.
    rewrite Hp. reflexivity.
Qed.

End Fifo.

(** ** Construction *)

Lemma reader_thread_start_success (e : libc) (bytes frames bufcount : Z)
    (s : reader_thread_state) (es : list effect) :
  reader_thread_start e bytes frames bufcount = (Some s, es) ->
  exists b,
    heap e (CInt.mul bytes bufcount) = Some b
    /\ Mem.len b = CInt.mul bytes bufcount
    /\ s = mk_state b 0 0 frames bytes (CInt.mul bytes bufcount)
                    false false false
    /\ es = [].
Proof.
  unfold reader_thread_start, malloc.
  destruct (malloc_state e); cbn [negb]; [|discriminate].
  destruct (heap e (CInt.mul bytes bufcount)) as [b|]; [|discriminate].
  destruct (Z.eqb_spec (Mem.len b) (CInt.mul bytes bufcount)); [|discriminate].
  destruct (pthread_create_rc e =? 0); [|discriminate].
  intros H. injection H as <- <-. exists b. auto.
Qed.

Lemma reader_thread_start_ring_ok (e : libc) (bytes frames bufcount : Z)
    (s : reader_thread_state) (es : list effect) :
  0 < bytes -> 2 <= bufcount -> bytes * bufcount <= CInt.INT_MAX ->
  reader_thread_start e bytes frames bufcount = (Some s, es) ->
  ring_ok bytes bufcount s 0 0
  /\ stop s = false /\ overrun s = false /\ error s = false.
Proof.
  intros Hb Hn Hmax Hs.
  apply reader_thread_start_success in Hs.
  destruct Hs as [b [_ [Hlen [-> _]]]].
  rewrite CIntFacts.mul_in_range in *
    by (unfold CInt.in_range, CInt.INT_MIN, CInt.INT_MAX in *; nia).
  repeat split; cbn; try assumption; lia.
Qed.

(** ** The top of the loop *)

Lemma next_offset_same (s s' : reader_thread_state) :
  same_geometry s s' -> next_offset s = next_offset s'.
Proof.
  intros [Hh [Hp [Hl _]]]. unfold next_offset. rewrite Hh, Hp, Hl. reflexivity.
Qed.

Lemma loop_head_not_stopped (s : reader_thread_state) :
  stop s = false ->
  exists s1,
    loop_head s = (s1, Some (head_offset s, next_offset s))
    /\ same_geometry s s1.
Proof.
  intros Hstop. unfold loop_head. rewrite Hstop.
  destruct (next_offset s =? tail_offset s); eexists; split;
    try reflexivity; repeat split.
Qed.

(** ** The two threads together: what every schedule keeps *)

Module MachineFacts.
Import Machine Inv.

(** Splits a step into the cases of its definition. *)
Ltac step_unfold H :=
  unfold step, step_capture, step_readi, step_consumer, is_free in H;
  cbn [shared mu cap con] in H.

Ltac step_destruct H :=
  repeat match type of H with
    | context [match ?x with _ => _ end] => destruct x eqn:?
    end;
  try discriminate H;
  injection H as <- <-.

Ltac step_inversion H := step_unfold H; step_destruct H.

Lemma run_cons (m : machine) (a : action) (acts : list action)
    (es : list event) (m' : machine) :
  run m (a :: acts) = Some (es, m') ->
  exists e m1 es1,
    step m a = Some (e, m1) /\ run m1 acts = Some (es1, m') /\ es = e :: es1.
Proof.
  cbn [run]. destruct (step m a) as [[e m1]|]; [|discriminate].
  destruct (run m1 acts) as [[es1 m2]|] eqn:Hr; [|discriminate].
  intros H. injection H as <- <-. exists e, m1, es1. auto.
Qed.

(** A property kept by every step holds at the end of every schedule;
    [f] follows a counter along the events. *)
Lemma run_invariant (A : Type) (f : A -> event -> A)
    (P : A -> machine -> Prop) :
  (forall c m a e m', P c m -> step m a = Some (e, m') -> P (f c e) m') ->
  forall acts c m es m',
    P c m -> run m acts = Some (es, m') -> P (fold_left f es c) m'.
Proof.
  intros Hstep. induction acts as [|a acts IH]; intros c m es m' HP Hrun.
  - cbn in Hrun. injection Hrun as <- <-. exact HP.
  - apply run_cons in Hrun. destruct Hrun as [e [m1 [es1 [Hs [Hr ->]]]]].
    cbn [fold_left]. eapply IH; [|exact Hr]. eapply Hstep; eassumption.
Qed.

Lemma lock_ok_init (s : reader_thread_state) : lock_ok (init s).
Proof.
  split; split; cbn; try discriminate. intros [d H]. discriminate H.
Qed.

Lemma lock_ok_step (m : machine) (a : action) (e : event) (m' : machine) :
  lock_ok m -> step m a = Some (e, m') -> lock_ok m'.
Proof.
  destruct m as [s l p k]. unfold lock_ok. cbn [mu cap con].
  intros [[Hc1 Hc2] [Hk1 Hk2]] Hstep.
  destruct a; step_inversion Hstep; cbn [mu cap con]; subst;
    try (destruct l as [[|]|]; try discriminate);
    repeat split; intros H;
    try discriminate H; try reflexivity;
    try (match type of H with ex _ => destruct H as [? H]; discriminate H end);
    try (eexists; reflexivity);
    try (apply Hk1; exact H); try (apply Hk2; exact H);
    try (apply Hc1; exact H); try (apply Hc2; exact H);
    try (exfalso;
         try pose proof (Hc2 eq_refl);
         try pose proof (Hk2 H);
         try pose proof (Hc2 H);
         try pose proof (Hk2 (ex_intro _ _ eq_refl));
         try pose proof (Hc1 eq_refl);
         try (destruct (Hk1 eq_refl));
         congruence).
Qed.

(** *** After a fatal error *)

Lemma reader_thread_stop_same (s : reader_thread_state) :
  stop s = true -> reader_thread_stop s = s.
Proof. destruct s; cbn; intros ->; reflexivity. Qed.

Lemma poll_must_wait_error (s : reader_thread_state) :
  error s = true -> poll_must_wait s = false.
Proof.
  intros He. unfold poll_must_wait. rewrite He, orb_true_r. apply andb_false_r.
Qed.

Lemma poll_locked_error (s : reader_thread_state) :
  error s = true -> poll_locked s = (-1, None, s).
Proof. intros He. unfold poll_locked. rewrite He. reflexivity. Qed.

Lemma poll_locked_flags (s : reader_thread_state) (ret : Z)
    (src : option Z) (s' : reader_thread_state) :
  poll_locked s = (ret, src, s') -> error s' = error s /\ stop s' = stop s.
Proof.
  unfold poll_locked. destruct (error s) eqn:He; [|destruct (overrun s)];
    intros H; injection H as <- <- <-; cbn; auto.
Qed.

Lemma loop_head_stopped (s : reader_thread_state) :
  stop s = true -> loop_head s = (s, None).
Proof. intros Hs. unfold loop_head. rewrite Hs. reflexivity. Qed.

Lemma err_ok_init (s : reader_thread_state) :
  error s = false -> err_ok (init s).
Proof. intros He H. cbn in H. congruence. Qed.

Lemma err_ok_step (m : machine) (a : action) (e : event) (m' : machine) :
  err_ok m -> step m a = Some (e, m') -> err_ok m'.
Proof.
  destruct m as [s l p k]. unfold err_ok. cbn [shared cap].
  intros Hok Hstep.
  destruct (error s) eqn:He.
  - destruct (Hok eq_refl) as [Hs Hp].
    step_unfold Hstep.
    rewrite ?(poll_must_wait_error s He), ?(poll_locked_error s He),
      ?(loop_head_stopped s Hs), ?(reader_thread_stop_same s Hs) in Hstep.
    destruct Hp as [-> | ->]; destruct a; step_destruct Hstep;
      cbn [shared cap]; intros _; auto.
  - clear Hok. destruct a; step_unfold Hstep.
    + destruct p as [| |ptr nxt|nxt c|]; try discriminate.
      * step_destruct Hstep. cbn [shared cap]. congruence.
      * unfold loop_head in Hstep. destruct (stop s) eqn:Hs.
        -- injection Hstep as <- <-. cbn [shared cap]. congruence.
        -- destruct (next_offset s =? tail_offset s);
             injection Hstep as <- <-; cbn [shared cap error set_overrun];
             congruence.
      * unfold loop_tail in Hstep.
        destruct l; [discriminate|].
        destruct (classify s c); injection Hstep as <- <-;
          cbn [shared cap error stop set_overrun set_error set_stop
                 set_head_offset]; auto; congruence.
    + step_destruct Hstep. cbn [shared cap error snd_pcm_readi set_buf].
      congruence.
    + step_destruct Hstep. cbn. congruence.
    + step_destruct Hstep. cbn [shared]. congruence.
    + step_destruct Hstep. cbn [shared]. congruence.
    + step_destruct Hstep; cbn [shared cap]; try congruence.
      match goal with
      | H : poll_locked s = _ |- _ =>
          apply poll_locked_flags in H; destruct H as [H _]
      end.
      congruence.
Qed.

Lemma failed_step (m : machine) (a : action) (e : event) (m' : machine) :
  failed m -> step m a = Some (e, m') ->
  shared m' = shared m /\ failed m' /\ quiet e
  /\ (settled m -> settled m' /\ returns_error e).
Proof.
  destruct m as [s l p k]. unfold failed, settled. cbn [shared cap con].
  intros [He [Hs Hp]] Hstep.
  step_unfold Hstep.
  rewrite ?(poll_must_wait_error s He), ?(poll_locked_error s He),
    ?(loop_head_stopped s Hs), ?(reader_thread_stop_same s Hs) in Hstep.
  destruct Hp as [-> | ->]; destruct a; step_destruct Hstep;
    cbn [shared cap con quiet returns_error]; subst; auto 10.
Qed.

Lemma failed_run (acts : list action) :
  forall (m : machine) (es : list event) (m' : machine),
    failed m -> run m acts = Some (es, m') ->
    shared m' = shared m /\ failed m' /\ Forall quiet es
    /\ (settled m -> Forall returns_error es).
Proof.
  induction acts as [|a acts IH]; intros m es m' Hf Hrun.
  - cbn in Hrun. injection Hrun as <- <-. auto.
  - apply run_cons in Hrun. destruct Hrun as [e [m1 [es1 [Hs [Hr ->]]]]].
    destruct (@failed_step m a e m1 Hf Hs) as [Hsh [Hf1 [Hq Hset]]].
    destruct (IH m1 es1 m' Hf1 Hr) as [Hsh' [Hf' [Hq' Hset']]].
    split; [congruence|]. split; [assumption|].
    split; [constructor; assumption|].
    intros Hm. destruct (Hset Hm) as [Hm1 Hre].
    constructor; auto.
Qed.

(** Only line 82 moves [head_offset]. *)
Lemma step_head_offset (m : machine) (a : action) (e : event) (m' : machine) :
  step m a = Some (e, m') ->
  head_offset (shared m') = head_offset (shared m)
  \/ exists es, e = EvClassified Publish es.
Proof.
  destruct m as [s l p k]. cbn [shared]. intros Hstep.
  destruct a; step_unfold Hstep.
  - destruct p as [| |ptr nxt|nxt rc0|]; try discriminate.
    + step_destruct Hstep. left; reflexivity.
    + unfold loop_head in Hstep.
      destruct (stop s); [|destruct (next_offset s =? tail_offset s)];
        injection Hstep as <- <-; left; reflexivity.
    + destruct l; [discriminate|]. unfold loop_tail in Hstep.
      destruct (classify s rc0); injection Hstep as <- <-; cbn [shared];
        try (left; reflexivity).
      right. eexists. reflexivity.
  - step_destruct Hstep. left; reflexivity.
  - step_destruct Hstep. left; reflexivity.
  - step_destruct Hstep. left; reflexivity.
  - step_destruct Hstep. left; reflexivity.
  - destruct k as [|d|d|ret src d]; try discriminate.
    + destruct (poll_must_wait s).
      * injection Hstep as <- <-. left; reflexivity.
      * unfold poll_locked in Hstep.
        destruct (error s); [|destruct (overrun s)];
          injection Hstep as <- <-; left; reflexivity.
    + step_destruct Hstep. left; reflexivity.
    + step_destruct Hstep. left; reflexivity.
Qed.

(** *** The ring while both threads run *)

Section RingInv.

Variables pb n : Z.
Hypothesis Hpb : 0 < pb.
Hypothesis Hn : 2 <= n.
Hypothesis Hmax : pb * n <= CInt.INT_MAX.

Lemma classify_publish_inv (s : reader_thread_state) (c : Z) :
  classify s c = Publish -> overrun s = false.
Proof.
  unfold classify. destruct (c =? - EPIPE); [discriminate|].
  destruct (c <? 0); [discriminate|].
  destruct (overrun s); [discriminate|reflexivity].
Qed.

Lemma ring_inv_loop_head (c : nat) (s s' : reader_thread_state)
    (ptr nxt : Z) :
  ring_inv_at pb n c PLoop s ->
  loop_head s = (s', Some (ptr, nxt)) ->
  ring_inv_at pb n c (PReadi ptr nxt) s'.
Proof.
  intros [hi [ti [Hok [Hhi [Hc _]]]]] Hhead.
  destruct (stop s) eqn:Hstop.
  { unfold loop_head in Hhead. rewrite Hstop in Hhead. discriminate. }
  rewrite loop_head_running with (pb := pb) (n := n) (hi := hi) (ti := ti)
    in Hhead by assumption.
  injection Hhead as <- <- <-.
  exists hi, ti. destruct (Z.eqb_spec (slot n hi 1) ti) as [Heq|Hne].
  - split; [apply ring_ok_set_overrun; assumption|].
    repeat split; auto.
  - split; [assumption|].
    repeat split; auto.
Qed.

Lemma ring_inv_loop_exit (c : nat) (s s' : reader_thread_state) :
  ring_inv_at pb n c PLoop s ->
  loop_head s = (s', None) ->
  ring_inv_at pb n c PExit s'.
Proof.
  intros [hi [ti [Hok [Hhi [Hc _]]]]] Hhead.
  unfold loop_head in Hhead. destruct (stop s); [|discriminate].
  injection Hhead as <-. exists hi, ti. repeat split; auto; apply Hok.
Qed.

Lemma ring_inv_readi (c : nat) (s : reader_thread_state) (ptr nxt : Z)
    (r : readi_result) :
  ring_inv_at pb n c (PReadi ptr nxt) s ->
  Mem.len (written r) <= period_bytes s ->
  ring_inv_at pb n c (PRelock nxt (rc r)) (snd_pcm_readi s ptr r).
Proof.
  intros [hi [ti [Hok [Hhi [Hc [Hptr [Hnxt Hov]]]]]]] Hlen.
  exists hi, ti. rewrite (ok_period_bytes Hok) in Hlen. subst ptr.
  split; [apply ring_ok_readi; assumption|].
  repeat split; auto.
Qed.

Lemma ring_inv_loop_tail (c : nat) (s s' : reader_thread_state)
    (nxt k : Z) (es : list effect) :
  ring_inv_at pb n c (PRelock nxt k) s ->
  loop_tail s nxt k = (s', es) ->
  ring_inv_at pb n (count_event c (EvClassified (classify s k) es)) PLoop s'.
Proof.
  intros [hi [ti [Hok [Hhi [Hc [Hnxt Hov]]]]]] Htail.
  unfold loop_tail in Htail. cbn [count_event].
  destruct (classify s k) eqn:Hcl; injection Htail as <- <-.
  - exists hi, ti. split; [apply ring_ok_set_overrun; assumption|].
    repeat split; auto.
  - exists hi, ti.
    split; [apply ring_ok_set_stop, ring_ok_set_error; assumption|].
    repeat split; auto.
  - exists hi, ti. repeat split; auto; apply Hok.
  - apply classify_publish_inv in Hcl.
    assert (Hti := ok_ti Hok).
    assert (Hne : slot n hi 1 <> ti)
      by (intros Heq; apply Hov in Heq; congruence).
    assert (Hnew : slot n hi 1 = slot n ti (Z.of_nat (S c)))
      by (rewrite Nat2Z.inj_succ, Hhi, slot_1_slot by lia; f_equal; lia).
    assert (Hc' : Z.of_nat (S c) < n).
    { rewrite Hnew in Hne. rewrite Nat2Z.inj_succ in *.
      destruct (Z.eq_dec (Z.succ (Z.of_nat c)) n) as [Heq|]; [|lia].
      exfalso. apply Hne. apply slot_eq_start; lia. }
    exists (slot n hi 1), ti. subst nxt.
    split; [apply ring_ok_set_head with (hi := hi);
            [assumption | apply slot_range; [apply Hok | lia]]|].
    repeat split; auto.
Qed.

Lemma ring_inv_stop (c : nat) (p : capture_pc) (s : reader_thread_state) :
  ring_inv_at pb n c p s -> ring_inv_at pb n c p (reader_thread_stop s).
Proof.
  intros [hi [ti [Hok [Hhi [Hc Hp]]]]]. exists hi, ti.
  split; [apply ring_ok_set_stop; assumption|].
  repeat split; auto.
Qed.

Lemma ring_inv_poll_locked (c : nat) (p : capture_pc)
    (s s' : reader_thread_state) (ret : Z) (src : option Z) :
  ring_inv_at pb n c p s ->
  poll_must_wait s = false ->
  poll_locked s = (ret, src, s') ->
  ring_inv_at pb n (count_event c (EvPollLocked ret)) p s'.
Proof.
  intros [hi [ti [Hok [Hhi [Hc Hp]]]]] Hwait Hpoll.
  assert (Hti := ok_ti Hok). assert (Hhr := ok_hi Hok).
  unfold poll_locked in Hpoll.
  destruct (error s) eqn:He; [|destruct (overrun s) eqn:Ho].
  - injection Hpoll as <- <- <-. cbn. exists hi, ti. auto.
  - injection Hpoll as <- <- <-. cbn [count_event Z.eqb].
    exists hi, hi. rewrite (ok_head Hok).
    split; [apply ring_ok_set_tail with (ti := ti);
            [apply ring_ok_set_overrun|]; assumption|].
    split; [symmetry; apply slot_0; assumption|].
    split; [cbn; lia|].
    assert (Hne : slot n hi 1 <> hi)
      by (intros Heq; apply slot_eq_start in Heq; lia).
    destruct p; cbn; repeat split; try apply Hp;
      intros Heq; contradiction.
  - rewrite (ok_tail Hok), (ok_period_bytes Hok), (ok_buf_len Hok) in Hpoll.
    rewrite next_offset_slot in Hpoll by assumption.
    injection Hpoll as <- <- <-. cbn [count_event Z.eqb].
    rewrite poll_must_wait_iff with (pb := pb) (n := n) (hi := hi) (ti := ti)
      in Hwait by assumption.
    apply Z.eqb_neq in Hwait.
    assert (Hc0 : c <> 0%nat).
    { intros ->. apply Hwait. rewrite Hhi. apply slot_0; assumption. }
    assert (Hs1 : 0 <= slot n ti 1 < n) by (apply slot_range; lia).
    exists hi, (slot n ti 1).
    split; [apply ring_ok_set_tail with (ti := ti); assumption|].
    split.
    { rewrite slot_slot_1 by lia. rewrite Hhi. f_equal. lia. }
    split; [lia|].
    assert (Hne : slot n hi 1 <> slot n ti 1)
      by (intros Heq; apply Hwait; apply slot_1_inj with (n := n); assumption).
    destruct p; cbn; repeat split; try apply Hp;
      intros Heq; contradiction.
Qed.

(** Every step keeps the ring well formed, with the unread periods
    counted along the events. *)
Lemma ring_inv_step (c : nat) (m : machine) (a : action) (e : event)
    (m' : machine) :
  ring_inv pb n c m -> step m a = Some (e, m') ->
  ring_inv pb n (count_event c e) m'.
Proof.
  destruct m as [s l p k]. unfold ring_inv. cbn [shared cap].
  intros Hinv Hstep. destruct a; step_unfold Hstep.
  - destruct p as [| |ptr nxt|nxt rc0|]; try discriminate.
    + destruct l; [discriminate|]. injection Hstep as <- <-.
      destruct Hinv as [hi [ti [Hok [Hhi [Hc _]]]]].
      exists hi, ti. cbn. auto.
    + destruct (loop_head s) as [s1 [[ptr nxt]|]] eqn:Hhead;
        injection Hstep as <- <-; cbn [shared cap count_event].
      * eapply ring_inv_loop_head; eassumption.
      * eapply ring_inv_loop_exit; eassumption.
    + destruct l; [discriminate|].
      destruct (loop_tail s nxt rc0) as [s1 es1] eqn:Htail.
      injection Hstep as <- <-. cbn [shared cap].
      eapply ring_inv_loop_tail; eassumption.
  - destruct p as [| |ptr nxt|nxt rc0|]; try discriminate.
    destruct (Z.leb_spec (Mem.len (written r)) (period_bytes s));
      [|discriminate].
    injection Hstep as <- <-. cbn [shared cap count_event].
    apply ring_inv_readi; assumption.
  - injection Hstep as <- <-. cbn [shared cap count_event].
    apply ring_inv_stop. assumption.
  - destruct k; try discriminate. injection Hstep as <- <-. assumption.
  - destruct k; try discriminate. destruct l; [discriminate|].
    injection Hstep as <- <-. assumption.
  - destruct k as [|d|d|ret src d]; try discriminate.
    + destruct (poll_must_wait s) eqn:Hwait.
      * injection Hstep as <- <-. assumption.
      * destruct (poll_locked s) as [[ret src] s1] eqn:Hpoll.
        injection Hstep as <- <-. cbn [shared cap].
        eapply ring_inv_poll_locked; eassumption.
    + destruct l; [discriminate|]. injection Hstep as <- <-. assumption.
    + injection Hstep as <- <-. assumption.
Qed.

Lemma ring_inv_run (acts : list action) (c : nat) (m : machine)
    (es : list event) (m' : machine) :
  ring_inv pb n c m -> run m acts = Some (es, m') ->
  ring_inv pb n (unread c es) m'.
Proof.
  apply (@run_invariant nat count_event (ring_inv pb n)).
  intros c0 m0 a e m1. apply ring_inv_step.
Qed.

Lemma ring_inv_init (s : reader_thread_state) :
  ring_ok pb n s 0 0 -> ring_inv pb n 0 (init s).
Proof.
  intros Hok. exists 0, 0. cbn [shared cap init].
  split; [assumption|]. split; [symmetry; apply slot_0; lia|].
  split; [cbn; lia | exact I].
Qed.

(** The offsets are equal exactly when nothing is unread. *)
Lemma ring_inv_empty (c : nat) (m : machine) :
  ring_inv pb n c m ->
  (head_offset (shared m) = tail_offset (shared m) <-> c = 0%nat).
Proof.
  intros [hi [ti [Hok [Hhi [Hc _]]]]].
  rewrite (ok_head Hok), (ok_tail Hok), offset_inj by assumption.
  assert (Hti := ok_ti Hok). rewrite Hhi. split.
  - intros Heq. apply slot_eq_start in Heq; lia.
  - intros ->. apply slot_0; assumption.
Qed.

End RingInv.

End MachineFacts.

(** ** The claims *)

(** C1.  For a ring of at least two slots: when the capture thread, from
    its start, has queued [N] whole periods with [N < bufcount - 1] before
    any poll, [N] polls one after the other each return 0 and put these
    periods, in the order they were read and byte for byte, at the front
    of their destinations. *)
Theorem poll_returns_periods_in_fifo_order
    (e : libc) (bytes frames bufcount : Z) (s0 : reader_thread_state)
    (es : list effect) (rs : list readi_result) (dsts : list Mem.block) :
  2 <= bufcount -> 0 < bytes -> bytes * bufcount <= CInt.INT_MAX ->
  reader_thread_start e bytes frames bufcount = (Some s0, es) ->
  Z.of_nat (length rs) < bufcount - 1 ->
  Forall (full_period bytes) rs ->
  length dsts = length rs ->
  Forall (fun d => bytes <= Mem.len d) dsts ->
  fst (poll_seq (fst (reader_thread_loop s0 rs)) dsts)
  = delivered bytes (map written rs) dsts.
Proof.
  intros Hn Hb Hmax Hstart HN Hrs Hd _.
  destruct (@reader_thread_start_ring_ok e bytes frames bufcount s0 es
              Hb Hn Hmax Hstart)
    as [Hok [Hstop [Hov Herr]]].
  unfold reader_thread_loop.
  rewrite loop_head_running with (pb := bytes) (n := bufcount) (hi := 0) (ti := 0)
    by assumption.
  assert (Hne : (slot bufcount 0 1 =? 0) = false)
    by (apply Z.eqb_neq; unfold slot;
        destruct (Z.ltb_spec (0 + 1) bufcount); lia).
  rewrite Hne.
  apply fifo_from_empty; assumption.
Qed.

Lemma poll_returns_periods_in_fifo_order_witness :
  fst (poll_seq (fst (reader_thread_loop ex_s0 [ex_r1; ex_r2])) [ex_dst; ex_dst])
  = [(0, Some [x01; x02; x00]); (0, Some [x03; x04; x00])].
Proof.
  refine (@poll_returns_periods_in_fifo_order
            ex_libc 2 1 4 ex_s0 [] [ex_r1; ex_r2] [ex_dst; ex_dst]
            _ _ _ _ _ _ _ _).
  - lia.
  - lia.
  - unfold CInt.INT_MAX. lia.
  - reflexivity.
  - simpl. lia.
  - repeat constructor; simpl; lia.
  - reflexivity.
  - repeat constructor; unfold Mem.len; simpl; lia.
Defined.

(** C2.  In every state the two threads can reach from a successful
    start of a ring with at least two slots: [head_offset] equals
    [tail_offset] exactly when no period is unread; at most
    [bufcount - 1] periods are unread; and a step that moves
    [head_offset] never makes it equal to [tail_offset]. *)
Theorem offsets_equal_iff_empty
    (e : libc) (bytes frames bufcount : Z) (s0 : reader_thread_state)
    (es0 : list effect) (acts : list Machine.action)
    (evs : list Machine.event) (m : Machine.machine) :
  0 < bytes -> 2 <= bufcount -> bytes * bufcount <= CInt.INT_MAX ->
  reader_thread_start e bytes frames bufcount = (Some s0, es0) ->
  Machine.run (Machine.init s0) acts = Some (evs, m) ->
  (head_offset (Machine.shared m) = tail_offset (Machine.shared m)
   <-> Machine.unread 0 evs = 0%nat)
  /\ Z.of_nat (Machine.unread 0 evs) <= bufcount - 1
  /\ forall a e' m',
      Machine.step m a = Some (e', m') ->
      head_offset (Machine.shared m') <> head_offset (Machine.shared m) ->
      head_offset (Machine.shared m') <> tail_offset (Machine.shared m').
Proof.
  intros Hb Hn Hmax Hstart Hrun.
  destruct (@reader_thread_start_ring_ok e bytes frames bufcount s0 es0
              Hb Hn Hmax Hstart) as [Hok _].
  assert (Hinv : Inv.ring_inv bytes bufcount (Machine.unread 0 evs) m).
  { eapply MachineFacts.ring_inv_run; try eassumption.
    apply MachineFacts.ring_inv_init; assumption. }
  split; [apply MachineFacts.ring_inv_empty with (pb := bytes) (n := bufcount);
          assumption|].
  split.
  { destruct Hinv as [hi [ti [_ [_ [Hc _]]]]]. lia. }
  intros a e' m' Hstep Hmoved.
  destruct (MachineFacts.step_head_offset _ _ Hstep) as [Hsame|[es ->]];
    [contradiction|].
  assert (Hinv' : Inv.ring_inv bytes bufcount
                    (S (Machine.unread 0 evs)) m').
  { change (S (Machine.unread 0 evs))
      with (Machine.count_event (Machine.unread 0 evs)
              (Machine.EvClassified Publish es)).
    eapply MachineFacts.ring_inv_step; eassumption. }
  intros Heq.
  apply MachineFacts.ring_inv_empty
    with (pb := bytes) (n := bufcount) (c := S (Machine.unread 0 evs)) in Heq;
    try assumption.
  discriminate Heq.
Qed.

Lemma offsets_equal_iff_empty_witness :
  exists evs m,
    Machine.run (Machine.init ex_s0) ex_schedule = Some (evs, m)
    /\ (head_offset (Machine.shared m) = tail_offset (Machine.shared m)
        <-> Machine.unread 0 evs = 0%nat)
    /\ Z.of_nat (Machine.unread 0 evs) <= 4 - 1.
Proof.
  destruct (Machine.run (Machine.init ex_s0) ex_schedule) as [[evs m]|] eqn:Hrun;
    [|vm_compute in Hrun; discriminate Hrun].
  exists evs, m. split; [reflexivity|].
  destruct (@offsets_equal_iff_empty ex_libc 2 1 4 ex_s0 [] ex_schedule evs m)
    as [H1 [H2 _]].
  - lia.
  - lia.
  - unfold CInt.INT_MAX. lia.
  - reflexivity.
  - exact Hrun.
  - split; [exact H1 | exact H2].
Defined.

(** C3, as the code has it.  [next_offset] is [head_offset +
    period_bytes], or 0 from [buf_len] on.  When it equals [tail_offset],
    the thread marks the overrun before the read.  When the read has
    returned, line 76 tests the flag, not the offsets: as long as
    [overrun] is still set, [head_offset], [tail_offset] and the buffer
    stay whatever the read returned, so with no poll in between the
    period just read is dropped and every byte outside its slot, so every
    period queued before, is as it was; once a poll has cleared the flag,
    a read that succeeded is queued at [next_offset]. *)
Theorem pending_overrun_drops_incoming_period
    (s : reader_thread_state) (r : readi_result) :
  stop s = false ->
  CInt.in_range (head_offset s + period_bytes s) ->
  0 <= head_offset s ->
  Mem.len (written r) <= period_bytes s ->
  head_offset s + period_bytes s <= Mem.len (buf s) ->
  next_offset s
  = (if head_offset s + period_bytes s >=? buf_len s
     then 0 else head_offset s + period_bytes s)
  /\ (next_offset s = tail_offset s ->
      exists s1 s' es,
        loop_head s = (s1, Some (head_offset s, next_offset s))
        /\ overrun s1 = true
        /\ loop_iteration s r = Some (s', es)
        /\ overrun s' = true
        /\ head_offset s' = head_offset s
        /\ tail_offset s' = tail_offset s
        /\ forall o k,
            0 <= o -> 0 <= k ->
            o + k <= head_offset s \/ head_offset s + period_bytes s <= o ->
            Mem.load (buf s') o k = Mem.load (buf s) o k)
  /\ (forall s2 nxt c,
        overrun s2 = true ->
        let s' := fst (loop_tail s2 nxt c) in
        head_offset s' = head_offset s2
        /\ tail_offset s' = tail_offset s2
        /\ buf s' = buf s2
        /\ overrun s' = true)
  /\ (forall s2 nxt c,
        overrun s2 = false -> 0 <= c ->
        head_offset (fst (loop_tail s2 nxt c)) = nxt).
Proof.
  intros Hstop Hrange Hh Hw Hb. split; [|split; [|split]].
  - unfold next_offset. rewrite CIntFacts.add_in_range by assumption. reflexivity.
  - intros Hnext.
    assert (Hhead : loop_head s
                    = (set_overrun s true, Some (head_offset s, next_offset s))).
    { unfold loop_head. rewrite Hstop, Hnext, Z.eqb_refl. reflexivity. }
    exists (set_overrun s true).
    unfold loop_iteration. rewrite Hhead.
    set (s2 := snd_pcm_readi (set_overrun s true) (head_offset s) r).
    assert (Hload : forall o k,
               0 <= o -> 0 <= k ->
               o + k <= head_offset s \/ head_offset s + period_bytes s <= o ->
               Mem.load (buf s2) o k = Mem.load (buf s) o k).
    { assert (H0 := MemFacts.len_nonneg (written r)).
      intros o k Ho Hk [Hbefore|Hafter]; unfold s2; cbn.
      - apply MemFacts.load_store_before; lia.
      - apply MemFacts.load_store_after; lia. }
    unfold loop_tail, classify.
    destruct (rc r =? - EPIPE); [|destruct (rc r <? 0)];
      eexists; eexists; repeat split; try reflexivity; assumption.
  - intros s2 nxt c Hov. unfold loop_tail, classify. rewrite Hov.
    destruct (c =? - EPIPE); [|destruct (c <? 0)]; cbn; auto.
  - intros s2 nxt c Hov Hc. unfold loop_tail.
    rewrite classify_publish by assumption. reflexivity.
Qed.

Lemma pending_overrun_drops_incoming_period_witness :
  next_offset ex_full = 0
  /\ exists s' es,
      loop_iteration ex_full (mk_readi 1 [x07; x08]) = Some (s', es)
      /\ overrun s' = true /\ head_offset s' = 6 /\ tail_offset s' = 0
      /\ Mem.load (buf s') 0 6 = [x01; x02; x03; x04; x05; x06].
Proof.
  destruct (@pending_overrun_drops_incoming_period
              ex_full (mk_readi 1 [x07; x08]))
    as [Hnext [Hdrop _]].
  - reflexivity.
  - unfold CInt.in_range, CInt.INT_MIN, CInt.INT_MAX. simpl. lia.
  - simpl. lia.
  - unfold Mem.len. simpl. lia.
  - unfold Mem.len. simpl. lia.
  - split; [exact Hnext|].
    destruct (Hdrop eq_refl) as [s1 [s' [es [_ [_ [Hit [Hov [Hh [Ht Hload]]]]]]]]].
    exists s', es. repeat split; try assumption.
    rewrite Hload; [reflexivity|lia|lia|simpl; lia].
Defined.

(** C3, as stated, fails when a poll runs during the read.  With three
    periods queued in four slots the thread finds [next_offset] equal to
    [tail_offset] at the top of its fourth turn and sets [overrun]; a
    poll then returns 1 and clears the flag; the read returns a period,
    and the thread moves [head_offset] from 6 to 0: the period is queued,
    not dropped. *)
Lemma overrun_taken_during_read_queues_period :
  exists evs1 m1 evs2 m2,
    Machine.run (Machine.init ex_s0) ex_schedule_full = Some (evs1, m1)
    /\ Machine.cap m1 = Machine.PReadi 6 0
    /\ tail_offset (Machine.shared m1) = 0
    /\ overrun (Machine.shared m1) = true
    /\ head_offset (Machine.shared m1) = 6
    /\ Machine.run m1 ex_schedule_poll_in_read = Some (evs2, m2)
    /\ In (Machine.EvRead (mk_readi 1 [x07; x08])) evs2
    /\ head_offset (Machine.shared m2) = 0
    /\ Mem.load (buf (Machine.shared m2)) 6 2 = [x07; x08].
Proof.
  do 4 eexists.
  split; [vm_compute; reflexivity|].
  do 4 (split; [reflexivity|]).
  split; [vm_compute; reflexivity|].
  split; [cbn; auto 10|].
  split; reflexivity.
Qed.

(** C4.  [reader_thread_poll] on a state with [overrun] set and [error]
    clear returns 1, clears [overrun] and moves [tail_offset] to
    [head_offset]; the destination is not written.  The ring is then
    empty: a poll right after waits.  And on a well-formed ring whose
    capture thread stands in its read, the polls after it return the
    periods the thread queues from then on, oldest first, and nothing
    that was in the ring before. *)
Theorem overrun_poll_resynchronizes
    (s : reader_thread_state) (d : Mem.block) :
  overrun s = true -> error s = false ->
  exists s',
    reader_thread_poll s (Some d) = Returns 1 s' (Some d) []
    /\ overrun s' = false
    /\ tail_offset s' = head_offset s
    /\ head_offset s' = head_offset s
    /\ buf s' = buf s
    /\ reader_thread_poll s' (Some d) = Waits
    /\ forall (pb n hi ti : Z) (rs : list readi_result) (dsts : list Mem.block),
        0 < pb -> 2 <= n -> pb * n <= CInt.INT_MAX ->
        ring_ok pb n s hi ti -> stop s = false ->
        Z.of_nat (length rs) < n - 1 ->
        Forall (full_period pb) rs ->
        length dsts = length rs ->
        fst (poll_seq
               (fst (capture_reads s' (head_offset s) (next_offset s) rs)) dsts)
        = delivered pb (map written rs) dsts.
Proof.
  intros Hov Herr.
  exists (set_tail_offset (set_overrun s false) (head_offset s)).
  split.
  { cbn [reader_thread_poll]. unfold poll_must_wait, poll_locked.
    rewrite Hov, Herr, andb_false_r. reflexivity. }
  repeat (split; [reflexivity|]).
  split.
  { cbn [reader_thread_poll]. unfold poll_must_wait. cbn.
    rewrite Herr, Z.eqb_refl. reflexivity. }
  intros pb n hi ti rs dsts Hpb Hn Hmax Hok Hstop HN Hrs Hd.
  rewrite next_offset_ok with (pb := pb) (n := n) (hi := hi) (ti := ti)
    by assumption.
  rewrite (ok_head Hok).
  apply fifo_from_empty; try assumption; try reflexivity.
  apply ring_ok_set_tail with (ti := ti); [|apply Hok].
  apply ring_ok_set_overrun. assumption.
Qed.

(** The ring of three queued periods, after the capture thread has
    marked the overrun at the top of its fourth turn. *)
Lemma overrun_poll_resynchronizes_witness :
  exists s',
    reader_thread_poll (set_overrun ex_full true) (Some ex_dst)
    = Returns 1 s' (Some ex_dst) []
    /\ tail_offset s' = 6
    /\ reader_thread_poll s' (Some ex_dst) = Waits
    /\ fst (poll_seq (fst (capture_reads s' 6 0 [mk_readi 1 [x07; x08]]))
                     [ex_dst])
       = [(0, Some [x07; x08; x00])].
Proof.
  destruct (@overrun_poll_resynchronizes (set_overrun ex_full true) ex_dst)
    as [s' [Hpoll [_ [Ht [_ [_ [Hwait Hnew]]]]]]].
  - reflexivity.
  - reflexivity.
  - exists s'. repeat split; try assumption.
    refine (Hnew 2 4 3 0 [mk_readi 1 [x07; x08]] [ex_dst] _ _ _ _ _ _ _ _).
    + lia.
    + lia.
    + unfold CInt.INT_MAX. lia.
    + constructor; try reflexivity; lia.
    + reflexivity.
    + simpl. lia.
    + repeat constructor; simpl; lia.
    + reflexivity.
Defined.

(** C5.  A read that fails for good sets [error] and [stop] together and
    leaves the offsets, and the loop is left at its next test.  From a
    start with [error] clear, in every state the two threads reach with
    [error] set, [stop] is set too; and whatever they do from there, the
    struct stays as it is (no offset moves, [error] stays set), the device
    is not read again, the consumer never enters the wait, and the locked
    part of every poll gives -1: a poll returns -1 at once, whatever the
    offsets are, and every return is -1 unless a call was already copying
    when the state was reached. *)
Theorem error_is_terminal
    (s0 : reader_thread_state) (acts : list Machine.action)
    (evs : list Machine.event) (m : Machine.machine)
    (acts' : list Machine.action) (evs' : list Machine.event)
    (m' : Machine.machine) :
  error s0 = false ->
  Machine.run (Machine.init s0) acts = Some (evs, m) ->
  error (Machine.shared m) = true ->
  Machine.run m acts' = Some (evs', m') ->
  (forall s nxt c,
      c < 0 -> c <> - EPIPE ->
      let s' := fst (loop_tail s nxt c) in
      error s' = true /\ stop s' = true
      /\ head_offset s' = head_offset s /\ tail_offset s' = tail_offset s
      /\ loop_head s' = (s', None))
  /\ stop (Machine.shared m) = true
  /\ Machine.shared m' = Machine.shared m
  /\ Forall Inv.quiet evs'
  /\ (forall d,
        reader_thread_poll (Machine.shared m') (Some d)
        = Returns (-1) (Machine.shared m') (Some d) [])
  /\ (Inv.settled m -> Forall Inv.returns_error evs').
Proof.
  intros He0 Hrun Herr Hrun'.
  split.
  { intros s nxt c Hc Hne. unfold loop_tail, classify.
    replace (c =? - EPIPE) with false by (symmetry; apply Z.eqb_neq; exact Hne).
    replace (c <? 0) with true by (symmetry; apply Z.ltb_lt; exact Hc).
    cbn. repeat split. }
  assert (Hok : Inv.err_ok m).
  { apply (@MachineFacts.run_invariant unit (fun u _ => u)
             (fun _ => Inv.err_ok)
             (fun _ m0 a e m1 => @MachineFacts.err_ok_step m0 a e m1)
             acts tt (Machine.init s0) evs m);
      [apply MachineFacts.err_ok_init; exact He0 | exact Hrun]. }
  destruct (Hok Herr) as [Hstop Hcap].
  assert (Hf : Inv.failed m) by (repeat split; assumption).
  destruct (MachineFacts.failed_run acts' Hf Hrun')
    as [Hsame [Hf' [Hquiet Hret]]].
  repeat split; try assumption.
  intros d. rewrite Hsame. cbn [reader_thread_poll].
  rewrite (MachineFacts.poll_must_wait_error _ Herr).
  rewrite (MachineFacts.poll_locked_error _ Herr). reflexivity.
Qed.

Lemma error_is_terminal_witness :
  exists evs m evs' m',
    Machine.run (Machine.init ex_s0) ex_schedule_error = Some (evs, m)
    /\ Machine.run m ex_schedule_after = Some (evs', m')
    /\ stop (Machine.shared m) = true
    /\ Machine.shared m' = Machine.shared m
    /\ Forall Inv.quiet evs'
    /\ Forall Inv.returns_error evs'.
Proof.
  destruct (Machine.run (Machine.init ex_s0) ex_schedule_error)
    as [[evs m]|] eqn:Hrun; [|vm_compute in Hrun; discriminate Hrun].
  destruct (Machine.run m ex_schedule_after) as [[evs' m']|] eqn:Hrun'.
  - exists evs, m, evs', m'.
    assert (Hm : error (Machine.shared m) = true /\ Inv.settled m)
      by (vm_compute in Hrun; injection Hrun as _ <-; split; [reflexivity|exact I]).
    destruct Hm as [Herr Hset].
    destruct (@error_is_terminal ex_s0 ex_schedule_error evs m
                ex_schedule_after evs' m' eq_refl Hrun Herr Hrun')
      as [_ [Hstop [Hsame [Hquiet [_ Hret]]]]].
    repeat split; try assumption. exact (Hret Hset).
  - exfalso. vm_compute in Hrun. injection Hrun as _ <-.
    vm_compute in Hrun'. discriminate Hrun'.
Defined.

(** C6, as the code has it.  [reader_thread_poll] with a null destination
    returns -1 at once: it neither waits nor takes the mutex, and the
    struct, offsets and flags included, is the one it was given.  The one
    thing it does is to write the global [reader_thread_error], which
    becomes "null buffer": it prints nothing, signals nothing and calls
    nothing of the device. *)
Theorem poll_null_destination_leaves_ring_state
    (s : reader_thread_state) (l : option Machine.thread)
    (p : Machine.capture_pc) (cur : string) :
  reader_thread_poll s None
  = Returns (-1) s None [SetErrorString "null buffer"%string]
  /\ error_string_after cur [SetErrorString "null buffer"%string]
     = "null buffer"%string
  /\ Machine.step (Machine.mk_machine s l p Machine.CIdle) Machine.APollNull
     = Some (Machine.EvPollReturn (-1) None,
             Machine.mk_machine s l p Machine.CIdle).
Proof.
  split; [reflexivity|]. split; reflexivity.
Qed.

(** C6, as stated, fails on its last part: the call changes a variable
    that both threads write, [reader_thread_error], here from "no error"
    to "null buffer". *)
Lemma poll_null_destination_sets_error_string :
  exists es,
    reader_thread_poll ex_s0 None = Returns (-1) ex_s0 None es
    /\ error_string_after reader_thread_error_init es = "null buffer"%string
    /\ error_string_after reader_thread_error_init es
       <> reader_thread_error_init.
Proof.
  exists [SetErrorString "null buffer"%string].
  repeat split. discriminate.
Qed.

(** C7.  When [snd_pcm_readi] returns [-EPIPE] in a turn of the loop that
    is not stopped, the thread sets [overrun], calls [snd_pcm_prepare] and
    leaves [head_offset] where it was; the next turn reads into the same
    slot, with the same [next_offset]. *)
Theorem device_overrun_retries_same_slot
    (s : reader_thread_state) (r : readi_result) :
  stop s = false -> rc r = - EPIPE ->
  exists s1 s' es s2,
    loop_head s = (s1, Some (head_offset s, next_offset s))
    /\ loop_iteration s r = Some (s', es)
    /\ overrun s' = true
    /\ In SndPcmPrepare es
    /\ head_offset s' = head_offset s
    /\ loop_head s' = (s2, Some (head_offset s, next_offset s)).
Proof.
  intros Hstop Hrc.
  destruct (loop_head_not_stopped s Hstop) as [s1 [Hhead Hsame]].
  set (s' := set_overrun (snd_pcm_readi s1 (head_offset s) r) true).
  assert (Hsame' : same_geometry s s')
    by (destruct Hsame as [? [? [? [? ?]]]]; repeat split; assumption).
  assert (Hstop' : stop s' = false)
    by (destruct Hsame' as [_ [_ [_ [_ H]]]]; rewrite <- H; exact Hstop).
  destruct (loop_head_not_stopped s' Hstop') as [s2 [Hhead' _]].
  exists s1, s', [Stderr "realtime alsa overrun"%string; SndPcmPrepare], s2.
  split; [exact Hhead|].
  split.
  { unfold loop_iteration. rewrite Hhead.
    unfold loop_tail, classify. rewrite Hrc, Z.eqb_refl. reflexivity. }
  split; [reflexivity|].
  split; [right; left; reflexivity|].
  rewrite Hhead', <- (next_offset_same Hsame').
  destruct Hsame' as [Hh _]. rewrite <- Hh. split; reflexivity.
Qed.

Lemma device_overrun_retries_same_slot_witness :
  exists s' es s2,
    loop_iteration ex_s0 (mk_readi (-32) []) = Some (s', es)
    /\ overrun s' = true /\ In SndPcmPrepare es /\ head_offset s' = 0
    /\ loop_head s' = (s2, Some (0, 2)).
Proof.
  destruct (@device_overrun_retries_same_slot ex_s0 (mk_readi (-32) []))
    as [s1 [s' [es [s2 [_ [Hit [Hov [Hprep [Hh Hnext]]]]]]]]].
  - reflexivity.
  - reflexivity.
  - exists s', es, s2. repeat split; assumption.
Defined.

(** C8, as the code has it.  When [reader_thread_start] succeeds and
    [bytes * bufcount] fits an [int], the state the capture thread is
    created with has both offsets 0 and the three flags clear, and a
    buffer of [bytes * bufcount] bytes; these bytes are the ones [malloc]
    handed out, nothing clears them. *)
Theorem start_clears_offsets_and_flags
    (e : libc) (bytes frames bufcount : Z) (s : reader_thread_state)
    (es : list effect) :
  CInt.in_range (bytes * bufcount) ->
  reader_thread_start e bytes frames bufcount = (Some s, es) ->
  head_offset s = 0 /\ tail_offset s = 0
  /\ stop s = false /\ overrun s = false /\ error s = false
  /\ period_bytes s = bytes /\ period_frames s = frames
  /\ buf_len s = bytes * bufcount
  /\ Mem.len (buf s) = bytes * bufcount
  /\ heap e (bytes * bufcount) = Some (buf s).
Proof.
  intros Hrange Hstart.
  apply reader_thread_start_success in Hstart.
  rewrite CIntFacts.mul_in_range in Hstart by assumption.
  destruct Hstart as [b [Hheap [Hlen [-> _]]]]. cbn.
  repeat split; assumption.
Qed.

Lemma start_clears_offsets_and_flags_witness :
  head_offset ex_s0 = 0 /\ tail_offset ex_s0 = 0
  /\ stop ex_s0 = false /\ overrun ex_s0 = false /\ error ex_s0 = false
  /\ period_bytes ex_s0 = 2 /\ period_frames ex_s0 = 1
  /\ buf_len ex_s0 = 8
  /\ Mem.len (buf ex_s0) = 8
  /\ heap ex_libc 8 = Some (buf ex_s0).
Proof.
  refine (@start_clears_offsets_and_flags ex_libc 2 1 4 ex_s0 [] _ _).
  - unfold CInt.in_range, CInt.INT_MIN, CInt.INT_MAX. lia.
  - reflexivity.
Defined.

(** C8, as stated, fails: with an allocator that hands out a block of
    [0xff] bytes the construction succeeds, offsets and flags are clear,
    and the buffer holds no zero byte. *)
Lemma start_leaves_buffer_as_allocated :
  reader_thread_start ex_libc 2 1 4 = (Some ex_s0, [])
  /\ head_offset ex_s0 = 0 /\ tail_offset ex_s0 = 0
  /\ stop ex_s0 = false /\ overrun ex_s0 = false /\ error ex_s0 = false
  /\ Mem.len (buf ex_s0) = 2 * 4
  /\ ~ Forall (fun x => x = x00) (buf ex_s0).
Proof.
  repeat split; try reflexivity.
  intros H. apply Forall_inv in H. discriminate H.
Qed.




(** C10.  A call of [reader_thread_poll] that returns 1 or -1 leaves the
    destination as it was.  Only a call that returns 0 writes to it: the
    [period_bytes] bytes of the slot at [tail_offset] replace its first
    [period_bytes] bytes. *)
Theorem poll_copies_only_on_success
    (s : reader_thread_state) (dst : option Mem.block)
    (ret : Z) (s' : reader_thread_state) (dst' : option Mem.block)
    (es : list effect) :
  0 <= tail_offset s -> 0 <= period_bytes s ->
  tail_offset s + period_bytes s <= Mem.len (buf s) ->
  reader_thread_poll s dst = Returns ret s' dst' es ->
  (ret = 0 \/ ret = 1 \/ ret = -1)
  /\ (ret <> 0 -> dst' = dst)
  /\ (ret = 0 ->
      exists d copied,
        dst = Some d
        /\ copied = Mem.load (buf s) (tail_offset s) (period_bytes s)
        /\ Mem.len copied = period_bytes s
        /\ dst' = Some (copied ++ skipn (Z.to_nat (period_bytes s)) d)).
Proof.
  intros Ht Hp Hb Hpoll. destruct dst as [d|]; cbn [reader_thread_poll] in Hpoll.
  - destruct (poll_must_wait s); [discriminate|].
    unfold poll_locked in Hpoll.
    destruct (error s); [|destruct (overrun s)];
      injection Hpoll as <- <- <- <-.
    + repeat split; auto. intros H; discriminate H.
    + repeat split; auto. intros H; discriminate H.
    + split; [auto|]. split; [intros H; contradiction H; reflexivity|].
      intros _. exists d, (Mem.load (buf s) (tail_offset s) (period_bytes s)).
      repeat split.
      apply MemFacts.len_load; assumption.
  - injection Hpoll as <- <- <- <-.
    repeat split; auto. intros H; discriminate H.
Qed.

Lemma poll_copies_only_on_success_witness :
  exists d copied,
    Some ex_dst = Some d
    /\ copied = Mem.load (buf ex_full) (tail_offset ex_full)
                         (period_bytes ex_full)
    /\ Mem.len copied = 2
    /\ Some [x01; x02; x00] = Some (copied ++ skipn 2 d).
Proof.
  destruct (@poll_copies_only_on_success ex_full (Some ex_dst) 0
              (set_tail_offset ex_full 2) (Some [x01; x02; x00]) [])
    as [_ [_ Hcopy]].
  - simpl. lia.
  - simpl. lia.
  - unfold Mem.len. simpl. lia.
  - reflexivity.
  - exact (Hcopy eq_refl).
Defined.

(** * Further properties of the code *)

(** ** Helpers *)

Module GhostFacts.
Import Machine Inv Ghost MachineFacts.

Lemma start_run_ring_inv (e : libc) (bytes frames bufcount : Z)
    (s0 : reader_thread_state) (es0 : list effect) (acts : list action)
    (evs : list event) (m : machine) :
  0 < bytes -> 2 <= bufcount -> bytes * bufcount <= CInt.INT_MAX ->
  reader_thread_start e bytes frames bufcount = (Some s0, es0) ->
  run (init s0) acts = Some (evs, m) ->
  ring_inv bytes bufcount (unread 0 evs) m.
Proof.
  intros Hb Hn Hmax Hstart Hrun.
  destruct (@reader_thread_start_ring_ok e bytes frames bufcount s0 es0
              Hb Hn Hmax Hstart) as [Hok _].
  eapply ring_inv_run; try eassumption.
  apply ring_inv_init; assumption.
Qed.

Lemma run_lock_ok (s0 : reader_thread_state) (acts : list action)
    (evs : list event) (m : machine) :
  run (init s0) acts = Some (evs, m) -> lock_ok m.
Proof.
  intros Hrun.
  apply (@run_invariant unit (fun u _ => u) (fun _ => lock_ok)
           (fun _ m0 a e m1 => @lock_ok_step m0 a e m1)
           acts tt (init s0) evs m);
    [apply lock_ok_init | exact Hrun].
Qed.

Lemma loop_tail_flags (s : reader_thread_state) (nxt c : Z) :
  let s' := fst (loop_tail s nxt c) in
  (stop s = true -> stop s' = true)
  /\ (error s = true -> error s' = true)
  /\ (overrun s = true -> overrun s' = true)
  /\ tail_offset s' = tail_offset s
  /\ period_bytes s' = period_bytes s
  /\ period_frames s' = period_frames s
  /\ buf_len s' = buf_len s
  /\ buf s' = buf s.
Proof.
  unfold loop_tail. destruct (classify s c); cbn; auto 10.
Qed.

Lemma loop_head_flags (s s' : reader_thread_state) (o : option (Z * Z)) :
  loop_head s = (s', o) ->
  stop s' = stop s /\ error s' = error s
  /\ (overrun s = true -> overrun s' = true)
  /\ head_offset s' = head_offset s /\ tail_offset s' = tail_offset s
  /\ period_bytes s' = period_bytes s
  /\ period_frames s' = period_frames s
  /\ buf_len s' = buf_len s
  /\ buf s' = buf s.
Proof.
  unfold loop_head. destruct (stop s) eqn:Hs.
  - intros H. injection H as <- <-. auto 10.
  - destruct (next_offset s =? tail_offset s); intros H; injection H as <- <-;
      cbn; auto 10.
Qed.

Lemma poll_locked_cases (s s' : reader_thread_state) (ret : Z)
    (src : option Z) :
  poll_locked s = (ret, src, s') ->
  (ret = -1 /\ src = None /\ s' = s /\ error s = true)
  \/ (ret = 1 /\ src = None /\ error s = false /\ overrun s = true
      /\ s' = set_tail_offset (set_overrun s false) (head_offset s))
  \/ (ret = 0 /\ src = Some (tail_offset s)
      /\ error s = false /\ overrun s = false
      /\ head_offset s' = head_offset s /\ buf s' = buf s
      /\ overrun s' = false /\ error s' = false /\ stop s' = stop s
      /\ period_bytes s' = period_bytes s
      /\ period_frames s' = period_frames s
      /\ buf_len s' = buf_len s).
Proof.
  unfold poll_locked. destruct (error s) eqn:He; [|destruct (overrun s) eqn:Ho];
    intros H; injection H as <- <- <-.
  - left. auto.
  - right; left. auto 10.
  - right; right. cbn. auto 15.
Qed.

(** What one step does to the flags, the sizes and the tail offset. *)
Lemma step_flags (m : machine) (a : action) (e : event) (m' : machine) :
  step m a = Some (e, m') ->
  (stop (shared m) = true -> stop (shared m') = true)
  /\ (error (shared m) = true -> error (shared m') = true)
  /\ period_bytes (shared m') = period_bytes (shared m)
  /\ period_frames (shared m') = period_frames (shared m)
  /\ buf_len (shared m') = buf_len (shared m)
  /\ (overrun (shared m) = true -> overrun (shared m') = false ->
      e = EvPollLocked 1)
  /\ (tail_offset (shared m') <> tail_offset (shared m) ->
      takes_or_discards e = true).
Proof.
  destruct m as [s l p k]. cbn [shared]. intros Hstep.
  destruct a; step_unfold Hstep.
  - destruct p as [| |ptr nxt|nxt rc0|]; try discriminate.
    + step_destruct Hstep. cbn [shared]. repeat split; congruence.
    + destruct (loop_head s) as [s1 o] eqn:Hhead.
      destruct (loop_head_flags _ Hhead)
        as [Hs [He [Ho [_ [Ht [Hp [Hf [Hl _]]]]]]]].
      destruct o as [[ptr nxt]|]; injection Hstep as <- <-; cbn [shared];
        repeat split; try congruence; try (intros H1 H2; apply Ho in H1; congruence).
    + destruct l; [discriminate|].
      destruct (loop_tail_flags s nxt rc0)
        as [Hs [He [Ho [Ht [Hp [Hf [Hl _]]]]]]].
      destruct (loop_tail s nxt rc0) as [s1 es1]. cbn [fst] in *.
      injection Hstep as <- <-. cbn [shared].
      repeat split; try assumption; try congruence.
      intros H1 H2. apply Ho in H1. congruence.
  - step_destruct Hstep. cbn. repeat split; congruence.
  - step_destruct Hstep. cbn. repeat split; congruence.
  - step_destruct Hstep. cbn [shared]. repeat split; congruence.
  - step_destruct Hstep. cbn [shared]. repeat split; congruence.
  - destruct k as [|d|d|ret src d]; try discriminate.
    + destruct (poll_must_wait s).
      * injection Hstep as <- <-. cbn [shared]. repeat split; congruence.
      * destruct (poll_locked s) as [[ret src] s1] eqn:Hpoll.
        injection Hstep as <- <-. cbn [shared].
        destruct (poll_locked_cases _ Hpoll)
          as [[-> [_ [-> _]]] | [[-> [_ [_ [_ ->]]]] |
              [-> [_ [He [Ho [_ [_ [Ho' [He' [Hs' [Hp [Hf Hl]]]]]]]]]]]]];
          cbn; repeat split; try congruence.
    + step_destruct Hstep. cbn [shared]. repeat split; congruence.
    + step_destruct Hstep. cbn [shared]. repeat split; congruence.
Qed.

End GhostFacts.

(** ** Flags, sizes and offsets along a schedule *)

(** X6.  Whatever the two threads and [reader_thread_stop] do, in any
    order: [stop] and [error] are never cleared, [period_bytes],
    [period_frames] and [buf_len] never change, and [overrun] goes from set
    to clear only through a poll that returns 1. *)
Theorem flags_are_sticky
    (acts : list Machine.action) :
  forall (m : Machine.machine) (evs : list Machine.event)
         (m' : Machine.machine),
    Machine.run m acts = Some (evs, m') ->
    (stop (Machine.shared m) = true -> stop (Machine.shared m') = true)
    /\ (error (Machine.shared m) = true -> error (Machine.shared m') = true)
    /\ period_bytes (Machine.shared m') = period_bytes (Machine.shared m)
    /\ period_frames (Machine.shared m') = period_frames (Machine.shared m)
    /\ buf_len (Machine.shared m') = buf_len (Machine.shared m)
    /\ (overrun (Machine.shared m) = true ->
        overrun (Machine.shared m') = false ->
        In (Machine.EvPollLocked 1) evs).
Proof.
  induction acts as [|a acts IH]; intros m evs m' Hrun.
  - cbn in Hrun. injection Hrun as <- <-. repeat split; auto. congruence.
  - apply MachineFacts.run_cons in Hrun.
    destruct Hrun as [e [m1 [es1 [Hs [Hr ->]]]]].
    destruct (GhostFacts.step_flags _ _ Hs) as [H1 [H2 [H3 [H4 [H5 [H6 _]]]]]].
    destruct (IH m1 es1 m' Hr) as [I1 [I2 [I3 [I4 [I5 I6]]]]].
    repeat split; try congruence; auto.
    intros Ho Ho'. destruct (overrun (Machine.shared m1)) eqn:Ho1.
    + right. apply I6; auto.
    + left. apply H6; [assumption | reflexivity].
Qed.

Lemma flags_are_sticky_witness :
  exists evs m',
    Machine.run (Machine.init (set_overrun ex_full true))
                [Machine.AStop; Machine.APoll ex_dst; Machine.AConsumer]
    = Some (evs, m')
    /\ overrun (Machine.shared m') = false
    /\ In (Machine.EvPollLocked 1) evs
    /\ buf_len (Machine.shared m') = 8.
Proof.
  destruct (Machine.run (Machine.init (set_overrun ex_full true))
              [Machine.AStop; Machine.APoll ex_dst; Machine.AConsumer])
    as [[evs m']|] eqn:Hrun; [|vm_compute in Hrun; discriminate Hrun].
  exists evs, m'. split; [reflexivity|].
  destruct (@flags_are_sticky _ _ _ _ Hrun) as [_ [_ [_ [_ [Hl Ho]]]]].
  assert (Hov : overrun (Machine.shared m') = false)
    by (vm_compute in Hrun; injection Hrun as _ <-; reflexivity).
  repeat split; [exact Hov | exact (Ho eq_refl Hov) | rewrite Hl; reflexivity].
Defined.

(** X7.  Each offset has one writer.  Along any schedule, [tail_offset]
    is as it was unless the locked part of a poll returned 0 or 1, and
    [head_offset] is as it was unless the capture thread queued a period
    at line 82. *)
Theorem offsets_have_one_writer
    (acts : list Machine.action) :
  forall (m : Machine.machine) (evs : list Machine.event)
         (m' : Machine.machine),
    Machine.run m acts = Some (evs, m') ->
    (existsb Ghost.takes_or_discards evs = false ->
     tail_offset (Machine.shared m') = tail_offset (Machine.shared m))
    /\ (existsb Ghost.queues evs = false ->
        head_offset (Machine.shared m') = head_offset (Machine.shared m)).
Proof.
  induction acts as [|a acts IH]; intros m evs m' Hrun.
  - cbn in Hrun. injection Hrun as <- <-. split; reflexivity.
  - apply MachineFacts.run_cons in Hrun.
    destruct Hrun as [e [m1 [es1 [Hs [Hr ->]]]]].
    destruct (IH m1 es1 m' Hr) as [It Ih]. cbn [existsb]. split.
    + intros Hex. apply orb_false_iff in Hex. destruct Hex as [He Hes].
      rewrite (It Hes).
      destruct (GhostFacts.step_flags _ _ Hs) as [_ [_ [_ [_ [_ [_ Ht]]]]]].
      destruct (Z.eq_dec (tail_offset (Machine.shared m1))
                         (tail_offset (Machine.shared m))) as [Heq|Hne];
        [exact Heq|]. apply Ht in Hne. congruence.
    + intros Hex. apply orb_false_iff in Hex. destruct Hex as [He Hes].
      rewrite (Ih Hes).
      destruct (MachineFacts.step_head_offset _ _ Hs) as [Heq|[es ->]];
        [exact Heq | discriminate He].
Qed.

Lemma offsets_have_one_writer_witness :
  exists evs m',
    Machine.run (Machine.init ex_s0)
                [Machine.ACapture; Machine.ACapture; Machine.AReadi ex_r1;
                 Machine.ACapture]
    = Some (evs, m')
    /\ tail_offset (Machine.shared m') = 0.
Proof.
  destruct (Machine.run (Machine.init ex_s0)
              [Machine.ACapture; Machine.ACapture; Machine.AReadi ex_r1;
               Machine.ACapture])
    as [[evs m']|] eqn:Hrun; [|vm_compute in Hrun; discriminate Hrun].
  exists evs, m'. split; [reflexivity|].
  destruct (@offsets_have_one_writer _ _ _ _ Hrun) as [Ht _].
  apply Ht. vm_compute in Hrun. injection Hrun as <- _. reflexivity.
Defined.

(** ** The mutex on the consumer side *)

(** X8.  In every state the two threads can reach, the consumer owns the
    mutex exactly between line 100 and line 118 of [reader_thread_poll]:
    not while it waits in [pthread_cond_wait], and not while it copies the
    period out.  The two locked parts exclude each other: the capture
    thread is never at its loop test while the consumer is at its own. *)
Theorem poll_copies_and_waits_without_mutex
    (s0 : reader_thread_state) (acts : list Machine.action)
    (evs : list Machine.event) (m : Machine.machine) :
  Machine.run (Machine.init s0) acts = Some (evs, m) ->
  (Machine.mu m = Some Machine.Consumer
   <-> exists d, Machine.con m = Machine.CLoop d)
  /\ (forall d, Machine.con m = Machine.CWait d ->
                Machine.mu m <> Some Machine.Consumer)
  /\ (forall ret src d, Machine.con m = Machine.CCopy ret src d ->
                        Machine.mu m <> Some Machine.Consumer)
  /\ ~ (Machine.cap m = Machine.PLoop
        /\ exists d, Machine.con m = Machine.CLoop d).
Proof.
  intros Hrun. destruct (GhostFacts.run_lock_ok _ _ Hrun) as [Hcap Hcon].
  split; [exact Hcon|]. repeat split.
  - intros d Hd Hmu. apply Hcon in Hmu. destruct Hmu as [d' Hd']. congruence.
  - intros ret src d Hd Hmu. apply Hcon in Hmu. destruct Hmu as [d' Hd'].
    congruence.
  - intros [Hp Hd]. apply Hcap in Hp. apply Hcon in Hd. congruence.
Qed.

Lemma poll_copies_and_waits_without_mutex_witness :
  exists evs m,
    Machine.run (Machine.init ex_s0)
                [Machine.ACapture; Machine.ACapture; Machine.AReadi ex_r1;
                 Machine.ACapture; Machine.ACapture;
                 Machine.APoll ex_dst; Machine.AConsumer]
    = Some (evs, m)
    /\ Machine.con m = Machine.CCopy 0 (Some 0) ex_dst
    /\ Machine.mu m <> Some Machine.Consumer.
Proof.
  destruct (Machine.run (Machine.init ex_s0)
              [Machine.ACapture; Machine.ACapture; Machine.AReadi ex_r1;
               Machine.ACapture; Machine.ACapture;
               Machine.APoll ex_dst; Machine.AConsumer])
    as [[evs m]|] eqn:Hrun; [|vm_compute in Hrun; discriminate Hrun].
  exists evs, m. split; [reflexivity|].
  destruct (@poll_copies_and_waits_without_mutex _ _ _ _ Hrun)
    as [_ [_ [Hcopy _]]].
  assert (Hcon : Machine.con m = Machine.CCopy 0 (Some 0) ex_dst)
    by (vm_compute in Hrun; injection Hrun as _ <-; reflexivity).
  split; [exact Hcon | exact (Hcopy _ _ _ Hcon)].
Defined.

(** ** Stopping *)

Lemma loop_head_split (s : reader_thread_state) :
  loop_head s
  = if stop s then (s, None)
    else (fst (Fine.loop_head_passed s),
          Some (snd (Fine.loop_head_passed s))).
Proof.
  unfold loop_head, Fine.loop_head_passed. destruct (stop s); reflexivity.
Qed.

Lemma loop_head_passed_flags (s : reader_thread_state) :
  stop (fst (Fine.loop_head_passed s)) = stop s
  /\ period_bytes (fst (Fine.loop_head_passed s)) = period_bytes s.
Proof.
  unfold Fine.loop_head_passed.
  destruct (next_offset s =? tail_offset s); split; reflexivity.
Qed.

(** The stop and the consumer leave the capture thread where it stands,
    and neither begins nor ends a device read. *)
Lemma step_other_keeps (m : Machine.machine) (a : Machine.action)
    (e : Machine.event) (b : Machine.machine) :
  Machine.step m a = Some (e, b) ->
  match a with
  | Machine.ACapture | Machine.AReadi _ => False
  | _ => True
  end ->
  Machine.cap b = Machine.cap m
  /\ Ghost.begins_read e = false /\ Ghost.ends_read e = false.
Proof.
  destruct m as [s l p k]. intros Hstep Ha.
  destruct a; try contradiction; MachineFacts.step_unfold Hstep;
    MachineFacts.step_destruct Hstep; repeat split.
Qed.

Lemma fine_run_cons (m : Fine.machine) (a : Machine.action)
    (acts : list Machine.action) (es : list Fine.event) (m' : Fine.machine) :
  Fine.run m (a :: acts) = Some (es, m') ->
  exists e m1 es1,
    Fine.step m a = Some (e, m1)
    /\ Fine.run m1 acts = Some (es1, m')
    /\ es = e :: es1.
Proof.
  cbn [Fine.run].
  destruct (Fine.step m a) as [[e m1]|]; [|discriminate].
  destruct (Fine.run m1 acts) as [[es1 m2]|] eqn:Hr; [|discriminate].
  intros H. injection H as <- <-. exists e, m1, es1. auto.
Qed.

Ltac other_step H :=
  unfold Fine.step_other in H;
  match type of H with
  | context [Machine.step ?m ?a] =>
      let Hb := fresh "Hb" in
      let Hcap := fresh "Hcap" in
      destruct (Machine.step m a) as [[?e0 ?b]|] eqn:Hb; [|discriminate H];
      injection H as <- <-;
      destruct (step_other_keeps _ _ Hb I) as [Hcap _];
      right; left; eexists; split; [reflexivity|];
      unfold Fine.coarse in *;
      cbn [Fine.shared Fine.mu Fine.cap Fine.con Machine.cap] in *;
      rewrite <- Hcap;
      match goal with |- Some (_, ?b) = _ => destruct b; reflexivity end
  end.

(** A step of [Fine] is the test of line 54 passing, or the same step of
    [Machine], or the one [Machine] does not have: lines 55-65 done with
    [stop] set since the test. *)
Lemma fine_step_coarse (m : Fine.machine) (a : Machine.action)
    (e : Fine.event) (m' : Fine.machine) :
  Fine.step m a = Some (e, m') ->
  (e = Fine.EvTestPassed
   /\ Fine.coarse m' = Fine.coarse m
   /\ Fine.cap m = Fine.FTest /\ Fine.cap m' = Fine.FHead
   /\ stop (Fine.shared m) = false)
  \/ (exists e0,
        e = Fine.Ev e0
        /\ Machine.step (Fine.coarse m) a = Some (e0, Fine.coarse m'))
  \/ (a = Machine.ACapture
      /\ Fine.cap m = Fine.FHead /\ stop (Fine.shared m) = true
      /\ Fine.mu m' = None /\ Fine.con m' = Fine.con m
      /\ exists ptr nxt,
           e = Fine.Ev (Machine.EvUnlockRead ptr nxt)
           /\ Fine.cap m' = Fine.FReadi ptr nxt).
Proof.
  destruct m as [s l p k]. intros Hstep.
  destruct a; cbn [Fine.step] in Hstep.
  - unfold Fine.step_capture, Fine.is_free in Hstep.
    cbn [Fine.shared Fine.mu Fine.cap Fine.con] in Hstep.
    destruct p as [| | |ptr nxt|nxt c|]; try discriminate.
    + destruct l; [discriminate|]. injection Hstep as <- <-.
      right; left. eexists. split; [reflexivity|]. reflexivity.
    + destruct (stop s) eqn:Hs; injection Hstep as <- <-.
      * right; left. eexists. split; [reflexivity|].
        unfold Fine.coarse, Machine.step, Machine.step_capture.
        cbn [Fine.shared Fine.mu Fine.cap Fine.con Fine.coarse_pc
             Machine.shared Machine.mu Machine.cap Machine.con].
        rewrite loop_head_split, Hs. reflexivity.
      * left. repeat split. assumption.
    + destruct (Fine.loop_head_passed s) as [s' [ptr nxt]] eqn:Hhead.
      injection Hstep as <- <-.
      destruct (stop s) eqn:Hs.
      * right; right. cbn [Fine.shared Fine.mu Fine.cap Fine.con].
        repeat split; try assumption. eauto.
      * right; left. eexists. split; [reflexivity|].
        unfold Fine.coarse, Machine.step, Machine.step_capture.
        cbn [Fine.shared Fine.mu Fine.cap Fine.con Fine.coarse_pc
             Machine.shared Machine.mu Machine.cap Machine.con].
        rewrite loop_head_split, Hs, Hhead. reflexivity.
    + destruct l; [discriminate|].
      destruct (loop_tail s nxt c) as [s' es] eqn:Htail.
      injection Hstep as <- <-.
      right; left. eexists. split; [reflexivity|].
      unfold Fine.coarse, Machine.step, Machine.step_capture, Machine.is_free.
      cbn [Fine.shared Fine.mu Fine.cap Fine.con Fine.coarse_pc
           Machine.shared Machine.mu Machine.cap Machine.con].
      rewrite Htail. reflexivity.
  - unfold Fine.step_readi in Hstep.
    cbn [Fine.shared Fine.mu Fine.cap Fine.con] in Hstep.
    destruct p as [| | |ptr nxt|nxt c|]; try discriminate.
    destruct (Mem.len (written r) <=? period_bytes s) eqn:Hlen;
      [|discriminate].
    injection Hstep as <- <-.
    right; left. eexists. split; [reflexivity|].
    unfold Fine.coarse, Machine.step, Machine.step_readi.
    cbn [Fine.shared Fine.mu Fine.cap Fine.con Fine.coarse_pc
         Machine.shared Machine.mu Machine.cap Machine.con].
    rewrite Hlen. reflexivity.
  - other_step Hstep.
  - other_step Hstep.
  - other_step Hstep.
  - other_step Hstep.
Qed.

Lemma fine_lock_ok_step (m : Fine.machine) (a : Machine.action)
    (e : Fine.event) (m' : Fine.machine) :
  Inv.lock_ok (Fine.coarse m) -> Fine.step m a = Some (e, m') ->
  Inv.lock_ok (Fine.coarse m').
Proof.
  intros Hok Hstep.
  destruct (fine_step_coarse _ _ Hstep)
    as [[_ [Heq _]] | [[e0 [_ Hc]] | [_ [Hcap [_ [Hmu [Hcon [ptr [nxt [_ Hcap']]]]]]]]]].
  - rewrite Heq. exact Hok.
  - eapply MachineFacts.lock_ok_step; eassumption.
  - destruct Hok as [[_ Hc2] [_ Hk2]].
    destruct m as [s l p k], m' as [s' l' p' k'].
    unfold Fine.coarse in *.
    cbn [Fine.shared Fine.mu Fine.cap Fine.con Machine.mu Machine.cap
         Machine.con] in *.
    subst p l' p' k'. cbn [Fine.coarse_pc] in *.
    assert (Hl : l = Some Machine.Capture) by (apply Hc2; reflexivity).
    split; split; try discriminate.
    intros Hd. apply Hk2 in Hd. congruence.
Qed.

Lemma fine_run_lock_ok (acts : list Machine.action) :
  forall (m : Fine.machine) (evs : list Fine.event) (m' : Fine.machine),
    Inv.lock_ok (Fine.coarse m) ->
    Fine.run m acts = Some (evs, m') ->
    Inv.lock_ok (Fine.coarse m').
Proof.
  induction acts as [|a acts IH]; intros m evs m' Hok Hrun.
  - cbn in Hrun. injection Hrun as <- <-. exact Hok.
  - apply fine_run_cons in Hrun.
    destruct Hrun as [e [m1 [es1 [Hstep [Hrun _]]]]].
    eapply IH; [|exact Hrun]. eapply fine_lock_ok_step; eassumption.
Qed.

Ltac other_stopped H Hstop :=
  unfold Fine.step_other in H;
  match type of H with
  | context [Machine.step ?m ?a] =>
      let Hb := fresh "Hb" in
      destruct (Machine.step m a) as [[?e0 ?b]|] eqn:Hb; [|discriminate H];
      injection H as <- <-;
      let Hbr := fresh "Hbr" in
      let Her := fresh "Her" in
      let Hs := fresh "Hs" in
      destruct (step_other_keeps _ _ Hb I) as [_ [Hbr Her]];
      destruct (GhostFacts.step_flags _ _ Hb) as [Hs _];
      cbn [Fine.shared Fine.cap Fine.begins_read Fine.ends_read];
      rewrite Hbr, Her;
      split; [apply Hs; exact Hstop|];
      split;
      match goal with
      | |- context [match ?p with Fine.FEntry => _ | _ => _ end] =>
          destruct p
      end; cbn; lia
  end.

(** What one step does once [stop] is set. *)
Lemma fine_step_stopped (m : Fine.machine) (a : Machine.action)
    (e : Fine.event) (m' : Fine.machine) :
  stop (Fine.shared m) = true ->
  Fine.step m a = Some (e, m') ->
  stop (Fine.shared m') = true
  /\ ((if Fine.begins_read e then 1 else 0) + Fine.reads_to_begin m'
      <= Fine.reads_to_begin m)%nat
  /\ ((if Fine.ends_read e then 1 else 0) + Fine.reads_to_end m'
      <= Fine.reads_to_end m)%nat.
Proof.
  destruct m as [s l p k]. cbn [Fine.shared]. intros Hstop Hstep.
  unfold Fine.reads_to_begin, Fine.reads_to_end.
  destruct a; cbn [Fine.step] in Hstep.
  - unfold Fine.step_capture, Fine.is_free in Hstep.
    cbn [Fine.shared Fine.mu Fine.cap Fine.con] in Hstep.
    destruct p as [| | |ptr nxt|nxt c|]; try discriminate.
    + destruct l; [discriminate|]. injection Hstep as <- <-.
      cbn. repeat split; auto.
    + rewrite Hstop in Hstep. injection Hstep as <- <-.
      cbn. repeat split; auto.
    + destruct (loop_head_passed_flags s) as [Hs _].
      destruct (Fine.loop_head_passed s) as [s' [ptr nxt]].
      cbn [fst] in Hs. injection Hstep as <- <-.
      cbn. repeat split; try lia. congruence.
    + destruct l; [discriminate|].
      destruct (GhostFacts.loop_tail_flags s nxt c) as [Hs _].
      destruct (loop_tail s nxt c) as [s' es]. cbn [fst] in Hs.
      injection Hstep as <- <-. cbn. repeat split; auto.
  - unfold Fine.step_readi in Hstep.
    cbn [Fine.shared Fine.mu Fine.cap Fine.con] in Hstep.
    destruct p as [| | |ptr nxt|nxt c|]; try discriminate.
    destruct (Mem.len (written r) <=? period_bytes s); [|discriminate].
    injection Hstep as <- <-. cbn. repeat split; auto.
  - other_stopped Hstep Hstop.
  - other_stopped Hstep Hstop.
  - other_stopped Hstep Hstop.
  - other_stopped Hstep Hstop.
Qed.

(** X9.  [reader_thread_stop] sets [stop] without the mutex.  Once it is
    set, whatever the threads do next: [stop] stays set; the capture
    thread begins a device read only when it had passed the test of
    line 54 before and still held the mutex, and then just that one; and
    at most one read returns, the one under way or that one. *)
Theorem stop_lets_at_most_one_read_go_on
    (acts : list Machine.action) :
  forall (m : Fine.machine) (evs : list Fine.event) (m' : Fine.machine),
    stop (Fine.shared m) = true ->
    Fine.run m acts = Some (evs, m') ->
    stop (Fine.shared m') = true
    /\ (length (filter Fine.begins_read evs) + Fine.reads_to_begin m'
        <= Fine.reads_to_begin m)%nat
    /\ (length (filter Fine.ends_read evs) + Fine.reads_to_end m'
        <= Fine.reads_to_end m)%nat.
Proof.
  induction acts as [|a acts IH]; intros m evs m' Hstop Hrun.
  - cbn in Hrun. injection Hrun as <- <-. cbn. auto.
  - apply fine_run_cons in Hrun.
    destruct Hrun as [e [m1 [es1 [Hs [Hr ->]]]]].
    destruct (fine_step_stopped _ _ Hstop Hs) as [Hstop1 [Hb He]].
    destruct (IH m1 es1 m' Hstop1 Hr) as [I1 [I2 I3]].
    split; [exact I1|]. cbn [filter].
    destruct (Fine.begins_read e), (Fine.ends_read e); cbn [length];
      split; lia.
Qed.

Lemma stop_lets_at_most_one_read_go_on_witness :
  exists evs1 m evs m',
    Fine.run (Fine.init ex_s0)
             [Machine.ACapture; Machine.ACapture; Machine.AStop]
    = Some (evs1, m)
    /\ Fine.cap m = Fine.FHead
    /\ stop (Fine.shared m) = true
    /\ Fine.run m [Machine.ACapture; Machine.AReadi ex_r1; Machine.ACapture;
                   Machine.ACapture]
       = Some (evs, m')
    /\ length (filter Fine.begins_read evs) = 1%nat
    /\ (length (filter Fine.ends_read evs) <= 1)%nat
    /\ stop (Fine.shared m') = true.
Proof.
  pose (m := Fine.mk_machine (reader_thread_stop ex_s0)
               (Some Machine.Capture) Fine.FHead Machine.CIdle).
  destruct (Fine.run m [Machine.ACapture; Machine.AReadi ex_r1;
                        Machine.ACapture; Machine.ACapture])
    as [[evs m']|] eqn:Hrun; [|vm_compute in Hrun; discriminate Hrun].
  exists [Fine.Ev (Machine.EvLock Machine.Capture); Fine.EvTestPassed;
          Fine.Ev Machine.EvStop], m, evs, m'.
  destruct (@stop_lets_at_most_one_read_go_on _ m evs m' eq_refl Hrun)
    as [H1 [_ H3]].
  split; [reflexivity|]. split; [reflexivity|]. split; [reflexivity|].
  split; [exact Hrun|].
  split; [vm_compute in Hrun; injection Hrun as <- _; reflexivity|].
  split; [cbn in H3; lia | exact H1].
Defined.

(** X10.  Once [stop] is set, the capture thread is at most four of its
    own steps from the end of [reader_thread_loop] (so that the
    [pthread_join] of line 170 can return), whatever state the two
    threads have reached, as soon as the consumer does not hold the
    mutex: when the thread had passed the loop test it begins one more
    read; the read returns, the thread takes the mutex, fails the loop
    test, releases the mutex and leaves.  The consumer is left where it
    stood. *)
Theorem stopped_thread_leaves_its_loop
    (s0 : reader_thread_state) (acts : list Machine.action)
    (evs : list Fine.event) (m : Fine.machine) (r : readi_result) :
  Fine.run (Fine.init s0) acts = Some (evs, m) ->
  stop (Fine.shared m) = true ->
  Fine.mu m <> Some Machine.Consumer ->
  Mem.len (written r) <= period_bytes (Fine.shared m) ->
  exists evs' m',
    Fine.run m (Fine.finish_schedule (Fine.cap m) r) = Some (evs', m')
    /\ Fine.cap m' = Fine.FExit
    /\ Fine.mu m' = None
    /\ Fine.con m' = Fine.con m
    /\ (length (Fine.finish_schedule (Fine.cap m) r) <= 4)%nat
    /\ (length (filter Fine.ends_read evs') <= 1)%nat.
Proof.
  intros Hrun Hstop Hmu Hlen.
  assert (Hlock : Inv.lock_ok (Fine.coarse m)).
  { eapply fine_run_lock_ok; [|exact Hrun].
    apply (MachineFacts.lock_ok_init s0). }
  destruct Hlock as [[Hcap1 Hcap2] _].
  destruct m as [s l p k].
  unfold Fine.coarse in Hcap1, Hcap2.
  cbn [Fine.shared Fine.mu Fine.cap Fine.con Machine.mu Machine.cap] in *.
  assert (Hl : Fine.coarse_pc p <> Machine.PLoop -> l = None).
  { intros Hp. destruct l as [[|]|]; try reflexivity.
    - exfalso. apply Hp. apply Hcap1. reflexivity.
    - exfalso. apply Hmu. reflexivity. }
  destruct p as [| | |ptr nxt|nxt c|]; cbn [Fine.finish_schedule].
  - rewrite Hl by discriminate.
    cbn [Fine.run Fine.step Fine.step_capture Fine.is_free
         Fine.cap Fine.mu Fine.shared Fine.con].
    rewrite Hstop.
    do 2 eexists. split; [reflexivity|]. cbn. repeat split; lia.
  - cbn [Fine.run Fine.step Fine.step_capture Fine.is_free
         Fine.cap Fine.mu Fine.shared Fine.con].
    rewrite Hstop.
    do 2 eexists. split; [reflexivity|]. cbn. repeat split; lia.
  - cbn [Fine.run Fine.step Fine.step_capture Fine.is_free
         Fine.cap Fine.mu Fine.shared Fine.con].
    destruct (loop_head_passed_flags s) as [Hs0 Hp0].
    destruct (Fine.loop_head_passed s) as [s0' [ptr nxt]].
    cbn [fst] in Hs0, Hp0.
    cbn [Fine.run Fine.step Fine.step_readi Fine.step_capture Fine.is_free
         Fine.cap Fine.mu Fine.shared Fine.con].
    replace (Mem.len (written r) <=? period_bytes s0') with true
      by (symmetry; apply Z.leb_le; rewrite Hp0; exact Hlen).
    cbn [Fine.run Fine.step Fine.step_readi Fine.step_capture Fine.is_free
         Fine.cap Fine.mu Fine.shared Fine.con].
    destruct (GhostFacts.loop_tail_flags (snd_pcm_readi s0' ptr r) nxt (rc r))
      as [Hs1 _].
    destruct (loop_tail (snd_pcm_readi s0' ptr r) nxt (rc r)) as [s1 es1].
    cbn [fst] in Hs1.
    cbn [Fine.run Fine.step Fine.step_readi Fine.step_capture Fine.is_free
         Fine.cap Fine.mu Fine.shared Fine.con].
    rewrite (Hs1 (eq_trans Hs0 Hstop)).
    do 2 eexists. split; [reflexivity|]. cbn. repeat split; lia.
  - rewrite Hl by discriminate.
    cbn [Fine.run Fine.step Fine.step_readi Fine.step_capture Fine.is_free
         Fine.cap Fine.mu Fine.shared Fine.con].
    replace (Mem.len (written r) <=? period_bytes s) with true
      by (symmetry; apply Z.leb_le; exact Hlen).
    cbn [Fine.run Fine.step Fine.step_readi Fine.step_capture Fine.is_free
         Fine.cap Fine.mu Fine.shared Fine.con].
    destruct (GhostFacts.loop_tail_flags (snd_pcm_readi s ptr r) nxt (rc r))
      as [Hs1 _].
    destruct (loop_tail (snd_pcm_readi s ptr r) nxt (rc r)) as [s1 es1].
    cbn [fst] in Hs1.
    cbn [Fine.run Fine.step Fine.step_readi Fine.step_capture Fine.is_free
         Fine.cap Fine.mu Fine.shared Fine.con].
    rewrite (Hs1 Hstop).
    do 2 eexists. split; [reflexivity|]. cbn. repeat split; lia.
  - rewrite Hl by discriminate.
    cbn [Fine.run Fine.step Fine.step_capture Fine.is_free
         Fine.cap Fine.mu Fine.shared Fine.con].
    destruct (GhostFacts.loop_tail_flags s nxt c) as [Hs1 _].
    destruct (loop_tail s nxt c) as [s1 es1]. cbn [fst] in Hs1.
    cbn [Fine.run Fine.step Fine.step_capture Fine.is_free
         Fine.cap Fine.mu Fine.shared Fine.con].
    rewrite (Hs1 Hstop).
    do 2 eexists. split; [reflexivity|]. cbn. repeat split; lia.
  - rewrite Hl by discriminate.
    do 2 eexists. split; [reflexivity|]. cbn. repeat split; lia.
Qed.

Lemma stopped_thread_leaves_its_loop_witness :
  exists evs m evs' m',
    Fine.run (Fine.init ex_s0)
             [Machine.ACapture; Machine.ACapture; Machine.AStop]
    = Some (evs, m)
    /\ Fine.cap m = Fine.FHead
    /\ Fine.run m [Machine.ACapture; Machine.AReadi ex_r1; Machine.ACapture;
                   Machine.ACapture]
       = Some (evs', m')
    /\ Fine.cap m' = Fine.FExit
    /\ Fine.mu m' = None.
Proof.
  destruct (Fine.run (Fine.init ex_s0)
              [Machine.ACapture; Machine.ACapture; Machine.AStop])
    as [[evs m]|] eqn:Hrun; [|vm_compute in Hrun; discriminate Hrun].
  assert (Hm : m = Fine.mk_machine (reader_thread_stop ex_s0)
                     (Some Machine.Capture) Fine.FHead Machine.CIdle)
    by (vm_compute in Hrun; injection Hrun as _ <-; reflexivity).
  destruct (@stopped_thread_leaves_its_loop ex_s0 _ evs m ex_r1 Hrun)
    as [evs' [m' [Hfin [Hcap [Hmu _]]]]].
  - rewrite Hm. reflexivity.
  - rewrite Hm. discriminate.
  - rewrite Hm. unfold Mem.len. simpl. lia.
  - exists evs, m, evs', m'. split; [reflexivity|].
    rewrite Hm in Hfin. cbn [Fine.cap Fine.finish_schedule] in Hfin.
    rewrite Hm. repeat split; assumption.
Defined.


(** ** Bounds *)

Lemma copy_ok_step (pb n : Z) (c : nat) (m : Machine.machine)
    (a : Machine.action) (e : Machine.event) (m' : Machine.machine) :
  Inv.ring_inv pb n c m -> Ghost.copy_ok pb n m ->
  Machine.step m a = Some (e, m') -> Ghost.copy_ok pb n m'.
Proof.
  destruct m as [s l p k]. unfold Inv.ring_inv, Ghost.copy_ok.
  cbn [Machine.shared Machine.cap Machine.con].
  intros [hi [ti [Hok _]]] Hcopy Hstep.
  destruct a; MachineFacts.step_unfold Hstep.
  - destruct p as [| |ptr nxt|nxt rc0|]; try discriminate;
      MachineFacts.step_destruct Hstep; exact Hcopy.
  - MachineFacts.step_destruct Hstep. exact Hcopy.
  - MachineFacts.step_destruct Hstep. exact Hcopy.
  - MachineFacts.step_destruct Hstep. cbn [Machine.con]. exact I.
  - MachineFacts.step_destruct Hstep. cbn [Machine.con]. exact I.
  - destruct k as [|d|d|ret src d]; try discriminate.
    + destruct (poll_must_wait s).
      * injection Hstep as <- <-. exact I.
      * destruct (poll_locked s) as [[ret src] s1] eqn:Hpoll.
        injection Hstep as <- <-. cbn [Machine.con].
        destruct (GhostFacts.poll_locked_cases _ Hpoll)
          as [[_ [-> _]] | [[_ [-> _]] | [_ [-> _]]]]; try exact I.
        exists ti. split; [apply Hok | apply (ok_tail Hok)].
    + MachineFacts.step_destruct Hstep. exact I.
    + MachineFacts.step_destruct Hstep. exact I.
Qed.

Lemma start_run_copy_ok (e : libc) (bytes frames bufcount : Z)
    (s0 : reader_thread_state) (es0 : list effect)
    (acts : list Machine.action) (evs : list Machine.event)
    (m : Machine.machine) :
  0 < bytes -> 2 <= bufcount -> bytes * bufcount <= CInt.INT_MAX ->
  reader_thread_start e bytes frames bufcount = (Some s0, es0) ->
  Machine.run (Machine.init s0) acts = Some (evs, m) ->
  Ghost.copy_ok bytes bufcount m.
Proof.
  intros Hb Hn Hmax Hstart Hrun.
  destruct (@reader_thread_start_ring_ok e bytes frames bufcount s0 es0
              Hb Hn Hmax Hstart) as [Hok _].
  assert (H : Inv.ring_inv bytes bufcount (Machine.unread 0 evs) m
              /\ Ghost.copy_ok bytes bufcount m).
  { apply (@MachineFacts.run_invariant nat Machine.count_event
             (fun c m0 => Inv.ring_inv bytes bufcount c m0
                          /\ Ghost.copy_ok bytes bufcount m0))
      with (acts := acts) (m := Machine.init s0); try assumption.
    - intros c m0 a e0 m1 [Hr Hc] Hs. split.
      + eapply MachineFacts.ring_inv_step; eassumption.
      + eapply copy_ok_step; eassumption.
    - split; [apply MachineFacts.ring_inv_init; assumption | exact I]. }
  apply H.
Qed.

(** X2.  In every state the two threads can reach from a successful start
    (at least two slots, [bytes] positive, [bytes * bufcount] fitting an
    [int]): the sizes are the ones given to [reader_thread_start]; both
    offsets are multiples of [period_bytes] with a whole slot of the
    buffer behind them; the pointer the device writes through is the head
    slot, and [next_offset] is the start of a slot; and the source of a
    [memcpy] still to be done is a whole slot of the buffer. *)
Theorem offsets_stay_inside_the_buffer
    (e : libc) (bytes frames bufcount : Z) (s0 : reader_thread_state)
    (es0 : list effect) (acts : list Machine.action)
    (evs : list Machine.event) (m : Machine.machine) :
  0 < bytes -> 2 <= bufcount -> bytes * bufcount <= CInt.INT_MAX ->
  reader_thread_start e bytes frames bufcount = (Some s0, es0) ->
  Machine.run (Machine.init s0) acts = Some (evs, m) ->
  let s := Machine.shared m in
  period_bytes s = bytes
  /\ buf_len s = bytes * bufcount
  /\ Mem.len (buf s) = bytes * bufcount
  /\ (0 <= head_offset s /\ head_offset s + bytes <= Mem.len (buf s)
      /\ head_offset s mod bytes = 0)
  /\ (0 <= tail_offset s /\ tail_offset s + bytes <= Mem.len (buf s)
      /\ tail_offset s mod bytes = 0)
  /\ (forall ptr nxt,
        Machine.cap m = Machine.PReadi ptr nxt ->
        ptr = head_offset s
        /\ 0 <= nxt /\ nxt + bytes <= Mem.len (buf s) /\ nxt mod bytes = 0)
  /\ (forall ret src d,
        Machine.con m = Machine.CCopy ret (Some src) d ->
        0 <= src /\ src + bytes <= Mem.len (buf s) /\ src mod bytes = 0).
Proof.
  intros Hb Hn Hmax Hstart Hrun s.
  assert (Hinv := @GhostFacts.start_run_ring_inv e bytes frames bufcount
                    s0 es0 acts evs m Hb Hn Hmax Hstart Hrun).
  assert (Hcopy := @start_run_copy_ok e bytes frames bufcount
                     s0 es0 acts evs m Hb Hn Hmax Hstart Hrun).
  destruct Hinv as [hi [ti [Hok [_ [_ Hpend]]]]]. fold s in Hok, Hpend.
  assert (Hslot : forall k, 0 <= k < bufcount ->
                    0 <= bytes * k /\ bytes * k + bytes <= Mem.len (buf s)
                    /\ (bytes * k) mod bytes = 0).
  { intros k Hk. rewrite (ok_buf Hok).
    split; [nia|]. split; [nia|].
    rewrite Z.mul_comm. apply Z.mod_mul; lia. }
  split; [apply Hok|]. split; [apply Hok|]. split; [apply Hok|].
  split; [rewrite (ok_head Hok); apply Hslot; apply Hok|].
  split; [rewrite (ok_tail Hok); apply Hslot; apply Hok|].
  split.
  - intros ptr nxt Hp. rewrite Hp in Hpend. destruct Hpend as [-> [-> _]].
    split; [symmetry; apply Hok|].
    apply Hslot. apply slot_range; [apply Hok | lia].
  - intros ret src d Hc. unfold Ghost.copy_ok in Hcopy. rewrite Hc in Hcopy.
    destruct Hcopy as [k [Hk ->]]. apply Hslot. exact Hk.
Qed.

Lemma offsets_stay_inside_the_buffer_witness :
  exists evs m,
    Machine.run (Machine.init ex_s0) ex_schedule_full = Some (evs, m)
    /\ Mem.len (buf (Machine.shared m)) = 2 * 4
    /\ head_offset (Machine.shared m) + 2 <= Mem.len (buf (Machine.shared m))
    /\ (forall ptr nxt,
          Machine.cap m = Machine.PReadi ptr nxt ->
          ptr = head_offset (Machine.shared m)
          /\ 0 <= nxt /\ nxt + 2 <= Mem.len (buf (Machine.shared m))
          /\ nxt mod 2 = 0).
Proof.
  destruct (Machine.run (Machine.init ex_s0) ex_schedule_full)
    as [[evs m]|] eqn:Hrun; [|vm_compute in Hrun; discriminate Hrun].
  exists evs, m. split; [reflexivity|].
  destruct (@offsets_stay_inside_the_buffer ex_libc 2 1 4 ex_s0 []
              ex_schedule_full evs m)
    as [_ [_ [Hlen [[_ [Hh _]] [_ [Hptr _]]]]]].
  - lia.
  - lia.
  - unfold CInt.INT_MAX. lia.
  - reflexivity.
  - exact Hrun.
  - repeat split; try assumption; apply (Hptr ptr nxt H).
Defined.

(** ** What the consumer can see of a full ring *)

(** X4.  In every state reached from a successful start, while the
    capture thread stands in a read or waits to lock after it: if
    [bufcount - 1] periods are unread, [overrun] is already set (the
    thread marked it before it released the mutex).  So the locked part
    of a poll that returns 0 finds at most [bufcount - 2] unread periods,
    the one it takes included. *)
Theorem full_ring_is_reported_as_overrun
    (e : libc) (bytes frames bufcount : Z) (s0 : reader_thread_state)
    (es0 : list effect) (acts : list Machine.action)
    (evs : list Machine.event) (m : Machine.machine) :
  0 < bytes -> 2 <= bufcount -> bytes * bufcount <= CInt.INT_MAX ->
  reader_thread_start e bytes frames bufcount = (Some s0, es0) ->
  Machine.run (Machine.init s0) acts = Some (evs, m) ->
  Ghost.in_or_after_read (Machine.cap m) = true ->
  (Z.of_nat (Machine.unread 0 evs) = bufcount - 1 ->
   overrun (Machine.shared m) = true)
  /\ (forall m',
        Machine.step m Machine.AConsumer
        = Some (Machine.EvPollLocked 0, m') ->
        1 <= Z.of_nat (Machine.unread 0 evs) <= bufcount - 2).
Proof.
  intros Hb Hn Hmax Hstart Hrun Hcap.
  assert (Hinv := @GhostFacts.start_run_ring_inv e bytes frames bufcount
                    s0 es0 acts evs m Hb Hn Hmax Hstart Hrun).
  assert (Hempty := @MachineFacts.ring_inv_empty bytes bufcount Hb Hn
                      (Machine.unread 0 evs) m Hinv).
  destruct Hinv as [hi [ti [Hok [Hhi [Hc Hpend]]]]].
  assert (Hti := ok_ti Hok).
  assert (Hfull : Z.of_nat (Machine.unread 0 evs) = bufcount - 1 ->
                  overrun (Machine.shared m) = true).
  { intros Hfull.
    assert (Hnext : slot bufcount hi 1 = ti).
    { rewrite Hhi, Hfull, slot_1_slot by lia.
      replace (bufcount - 1 + 1) with bufcount by lia.
      apply slot_eq_start; lia. }
    destruct (Machine.cap m); try discriminate Hcap; apply Hpend; exact Hnext. }
  split; [exact Hfull|].
  intros m' Hstep.
  destruct m as [s l p k]. cbn [Machine.shared Machine.cap] in *.
  MachineFacts.step_unfold Hstep.
  destruct k as [|d|d|ret src d]; try discriminate.
  - destruct (poll_must_wait s) eqn:Hwait; [discriminate|].
    destruct (poll_locked s) as [[ret src] s1] eqn:Hpoll.
    injection Hstep as Hret _. subst ret.
    destruct (GhostFacts.poll_locked_cases _ Hpoll)
      as [[Hx _] | [[Hx _] | [_ [_ [He [Ho _]]]]]]; try discriminate Hx.
    assert (Hne : head_offset s <> tail_offset s).
    { unfold poll_must_wait in Hwait. rewrite Ho, He in Hwait.
      cbn in Hwait. rewrite andb_true_r in Hwait.
      apply Z.eqb_neq. exact Hwait. }
    assert (Hc0 : Machine.unread 0 evs <> 0%nat)
      by (intros H0; apply Hne; apply Hempty; exact H0).
    destruct (Z.eq_dec (Z.of_nat (Machine.unread 0 evs)) (bufcount - 1))
      as [Heq|Hneq]; [apply Hfull in Heq; congruence | lia].
  - destruct l; discriminate.
Qed.

Lemma full_ring_is_reported_as_overrun_witness :
  exists evs m,
    Machine.run (Machine.init ex_s0) ex_schedule_full = Some (evs, m)
    /\ Z.of_nat (Machine.unread 0 evs) = 4 - 1
    /\ overrun (Machine.shared m) = true.
Proof.
  destruct (Machine.run (Machine.init ex_s0) ex_schedule_full)
    as [[evs m]|] eqn:Hrun; [|vm_compute in Hrun; discriminate Hrun].
  exists evs, m. split; [reflexivity|].
  assert (Hm : Ghost.in_or_after_read (Machine.cap m) = true
               /\ Z.of_nat (Machine.unread 0 evs) = 4 - 1)
    by (vm_compute in Hrun; injection Hrun as <- <-; split; reflexivity).
  destruct Hm as [Hcap Hfull].
  destruct (@full_ring_is_reported_as_overrun ex_libc 2 1 4 ex_s0 []
              ex_schedule_full evs m) as [Hov _].
  - lia.
  - lia.
  - unfold CInt.INT_MAX. lia.
  - reflexivity.
  - exact Hrun.
  - exact Hcap.
  - split; [exact Hfull | exact (Hov Hfull)].
Defined.

(** ** The condition variable *)

(** X5.  In every state reached from a successful start, when the capture
    thread classifies a read it signals the condition variable exactly
    when it queues a period and no period was unread before: never when
    it drops the period, marks a device overrun or records a fatal
    error. *)
Theorem signal_exactly_on_first_queued_period
    (e : libc) (bytes frames bufcount : Z) (s0 : reader_thread_state)
    (es0 : list effect) (acts : list Machine.action)
    (evs : list Machine.event) (m : Machine.machine) :
  0 < bytes -> 2 <= bufcount -> bytes * bufcount <= CInt.INT_MAX ->
  reader_thread_start e bytes frames bufcount = (Some s0, es0) ->
  Machine.run (Machine.init s0) acts = Some (evs, m) ->
  forall a cl es m',
    Machine.step m a = Some (Machine.EvClassified cl es, m') ->
    (In CondSignal es <-> cl = Publish /\ Machine.unread 0 evs = 0%nat).
Proof.
  intros Hb Hn Hmax Hstart Hrun a cl es m' Hstep.
  assert (Hinv := @GhostFacts.start_run_ring_inv e bytes frames bufcount
                    s0 es0 acts evs m Hb Hn Hmax Hstart Hrun).
  assert (Hempty := @MachineFacts.ring_inv_empty bytes bufcount Hb Hn
                      (Machine.unread 0 evs) m Hinv).
  destruct m as [s l p k]. cbn [Machine.shared] in Hempty.
  destruct a; MachineFacts.step_unfold Hstep;
    try (MachineFacts.step_destruct Hstep; fail).
  destruct p as [| |ptr nxt|nxt rc0|]; try discriminate.
    + destruct l; discriminate.
    + destruct (loop_head s) as [s1 [[ptr nxt]|]]; discriminate.
    + destruct l; [discriminate|]. unfold loop_tail in Hstep.
      destruct (classify s rc0) eqn:Hcl; injection Hstep as <- <- _.
      * split; [intros [H|[H|[]]]; discriminate H | intros [H _]; discriminate H].
      * split; [intros [H|[]]; discriminate H | intros [H _]; discriminate H].
      * split; [intros [] | intros [H _]; discriminate H].
      * destruct (Z.eqb_spec (head_offset s) (tail_offset s)) as [Heq|Hne].
        -- split; [intros _; split; [reflexivity | apply Hempty; exact Heq]
                  | intros _; left; reflexivity].
        -- split; [intros [] | intros [_ H0]; exfalso; apply Hne;
                               apply Hempty; exact H0].
Qed.

Lemma signal_exactly_on_first_queued_period_witness :
  exists evs m es m',
    Machine.run (Machine.init ex_s0)
                [Machine.ACapture; Machine.ACapture; Machine.AReadi ex_r1]
    = Some (evs, m)
    /\ Machine.step m Machine.ACapture
       = Some (Machine.EvClassified Publish es, m')
    /\ In CondSignal es.
Proof.
  destruct (Machine.run (Machine.init ex_s0)
              [Machine.ACapture; Machine.ACapture; Machine.AReadi ex_r1])
    as [[evs m]|] eqn:Hrun; [|vm_compute in Hrun; discriminate Hrun].
  destruct (Machine.step m Machine.ACapture) as [[e' m']|] eqn:Hstep;
    [|vm_compute in Hrun; injection Hrun as _ <-; vm_compute in Hstep;
      discriminate Hstep].
  assert (He : e' = Machine.EvClassified Publish [CondSignal]
               /\ Machine.unread 0 evs = 0%nat).
  { vm_compute in Hrun. injection Hrun as <- <-.
    vm_compute in Hstep. injection Hstep as <- _. split; reflexivity. }
  destruct He as [-> Hc].
  exists evs, m, [CondSignal], m'. split; [reflexivity|].
  split; [exact Hstep|].
  apply (@signal_exactly_on_first_queued_period ex_libc 2 1 4 ex_s0 []
           [Machine.ACapture; Machine.ACapture; Machine.AReadi ex_r1] evs m)
    with (a := Machine.ACapture) (cl := Publish) (m' := m');
    try assumption; try lia; try reflexivity.
  - unfold CInt.INT_MAX. lia.
  - split; [reflexivity | exact Hc].
Defined.

(** ** First in, first out, whatever the interleaving *)

Section FifoInv.

Variables pb n : Z.
Hypothesis Hpb : 0 < pb.
Hypothesis Hn : 2 <= n.
Hypothesis Hmax : pb * n <= CInt.INT_MAX.

Lemma queue_event_length (s : reader_thread_state) (q : list Mem.block)
    (e : Machine.event) :
  length (Ghost.queue_event s q e) = Machine.count_event (length q) e.
Proof.
  destruct e as [| | |c es| | | |ret|]; cbn; try reflexivity.
  - destruct c; try reflexivity. rewrite length_app. cbn. lia.
  - destruct (ret =? 0); [destruct q; reflexivity|].
    destruct (ret =? 1); reflexivity.
Qed.

Lemma ring_ok_unique (s s' : reader_thread_state) (hi ti hi' ti' : Z) :
  ring_ok pb n s hi ti -> ring_ok pb n s' hi' ti' ->
  (head_offset s' = head_offset s -> hi' = hi)
  /\ (tail_offset s' = tail_offset s -> ti' = ti).
Proof.
  intros Hok Hok'. split; intros Heq.
  - rewrite (ok_head Hok), (ok_head Hok') in Heq.
    apply offset_inj in Heq; assumption.
  - rewrite (ok_tail Hok), (ok_tail Hok') in Heq.
    apply offset_inj in Heq; assumption.
Qed.

Lemma holds_transfer (s s' : reader_thread_state) (hi ti hi' ti' : Z)
    (q : list Mem.block) :
  ring_ok pb n s hi ti -> ring_ok pb n s' hi' ti' ->
  tail_offset s' = tail_offset s -> buf s' = buf s ->
  holds pb n (buf s) ti q -> holds pb n (buf s') ti' q.
Proof.
  intros Hok Hok' Ht Hb Hq.
  destruct (ring_ok_unique Hok Hok') as [_ Hti].
  rewrite (Hti Ht), Hb. exact Hq.
Qed.

Ltac transfer Hok Hok' Hq :=
  apply holds_transfer with (1 := Hok) (2 := Hok');
  [first [reflexivity | assumption | symmetry; assumption] ..| exact Hq].

Lemma fifo_inv_step (q : list Mem.block) (m : Machine.machine)
    (a : Machine.action) (e : Machine.event) (m' : Machine.machine) :
  Ghost.fifo_inv pb n q m -> Machine.step m a = Some (e, m') ->
  Ghost.fifo_inv pb n (Ghost.queue_event (Machine.shared m) q e) m'.
Proof.
  intros [Hring Hq] Hstep. split.
  { rewrite queue_event_length.
    eapply MachineFacts.ring_inv_step; eassumption. }
  destruct Hring as [hi [ti [Hok [Hhi [Hc Hpend]]]]].
  specialize (Hq hi ti Hok).
  destruct m as [s l p k]. cbn [Machine.shared Machine.cap] in *.
  intros hi' ti' Hok'.
  destruct a; MachineFacts.step_unfold Hstep.
  - destruct p as [| |ptr nxt|nxt rc0|]; try discriminate.
    + destruct l; [discriminate|]. injection Hstep as <- <-.
      cbn [Machine.shared Ghost.queue_event] in *.
      transfer Hok Hok' Hq.
    + destruct (loop_head s) as [s1 o] eqn:Hhead.
      destruct (GhostFacts.loop_head_flags _ Hhead)
        as [_ [_ [_ [_ [Ht [_ [_ [_ Hb]]]]]]]].
      destruct o as [[ptr nxt]|]; injection Hstep as <- <-;
        cbn [Machine.shared Ghost.queue_event] in *;
        transfer Hok Hok' Hq.
    + destruct l; [discriminate|]. unfold loop_tail in Hstep.
      destruct (classify s rc0) eqn:Hcl; injection Hstep as <- <-;
        cbn [Machine.shared Ghost.queue_event] in *;
        try (transfer Hok Hok' Hq; fail).
      assert (Hti' : ti' = ti)
        by (apply (ring_ok_unique Hok Hok'); reflexivity).
      subst ti'. cbn [buf set_head_offset].
      apply holds_snoc; try assumption; try apply Hok.
      rewrite (ok_head Hok), (ok_period_bytes Hok), Hhi. reflexivity.
  - destruct p as [| |ptr nxt|nxt rc0|]; try discriminate.
    destruct (Z.leb_spec (Mem.len (written r)) (period_bytes s)) as [Hlen|];
      [|discriminate].
    injection Hstep as <- <-. cbn [Machine.shared Ghost.queue_event] in *.
    destruct Hpend as [-> _].
    assert (Hti' : ti' = ti)
      by (apply (ring_ok_unique Hok Hok'); reflexivity).
    subst ti'. cbn [buf snd_pcm_readi set_buf]. rewrite Hhi.
    apply holds_store; try assumption; try apply Hok.
    rewrite <- (ok_period_bytes Hok). exact Hlen.
  - injection Hstep as <- <-. cbn [Machine.shared Ghost.queue_event] in *.
    transfer Hok Hok' Hq.
  - destruct k; try discriminate. injection Hstep as <- <-.
    cbn [Machine.shared Ghost.queue_event] in *.
    transfer Hok Hok' Hq.
  - destruct k; try discriminate. destruct l; [discriminate|].
    injection Hstep as <- <-. cbn [Machine.shared Ghost.queue_event] in *.
    transfer Hok Hok' Hq.
  - destruct k as [|d|d|ret src d]; try discriminate.
    + destruct (poll_must_wait s) eqn:Hwait.
      * injection Hstep as <- <-. cbn [Machine.shared Ghost.queue_event] in *.
        transfer Hok Hok' Hq.
      * destruct (poll_locked s) as [[ret src] s1] eqn:Hpoll.
        injection Hstep as <- <-. cbn [Machine.shared Ghost.queue_event] in *.
        destruct (GhostFacts.poll_locked_cases _ Hpoll)
          as [[-> [_ [-> _]]] | [[-> _] | [-> [_ [He [Ho _]]]]]];
          cbn [Z.eqb].
        -- transfer Hok Hok' Hq.
        -- exact I.
        -- rewrite poll_locked_success
             with (pb := pb) (n := n) (hi := hi) (ti := ti) in Hpoll
             by assumption.
           injection Hpoll as _ <-.
           assert (Hti := ok_ti Hok).
           assert (Hti' : pb * ti' = pb * slot n ti 1)
             by (rewrite <- (ok_tail Hok'); reflexivity).
           apply offset_inj in Hti'; [|assumption]. subst ti'.
           cbn [buf set_tail_offset].
           destruct q as [|x q']; [exact I|]. cbn [tl].
           cbn [holds] in Hq. apply Hq.
    + destruct l; [discriminate|]. injection Hstep as <- <-.
      cbn [Machine.shared Ghost.queue_event] in *.
      transfer Hok Hok' Hq.
    + injection Hstep as <- <-. cbn [Machine.shared Ghost.queue_event] in *.
      transfer Hok Hok' Hq.
Qed.

Lemma fifo_inv_run (acts : list Machine.action) :
  forall (q : list Mem.block) (m : Machine.machine)
         (q' : list Mem.block) (m' : Machine.machine),
    Ghost.fifo_inv pb n q m ->
    Ghost.run_queue m q acts = Some (q', m') ->
    Ghost.fifo_inv pb n q' m'.
Proof.
  induction acts as [|a acts IH]; intros q m q' m' Hinv Hrun.
  - cbn in Hrun. injection Hrun as <- <-. exact Hinv.
  - cbn [Ghost.run_queue] in Hrun.
    destruct (Machine.step m a) as [[e m1]|] eqn:Hstep; [|discriminate].
    eapply IH; [|exact Hrun]. eapply fifo_inv_step; eassumption.
Qed.

End FifoInv.

Lemma start_run_fifo_inv (e : libc) (bytes frames bufcount : Z)
    (s0 : reader_thread_state) (es0 : list effect)
    (acts : list Machine.action) (q : list Mem.block) (m : Machine.machine) :
  0 < bytes -> 2 <= bufcount -> bytes * bufcount <= CInt.INT_MAX ->
  reader_thread_start e bytes frames bufcount = (Some s0, es0) ->
  Ghost.run_queue (Machine.init s0) [] acts = Some (q, m) ->
  Ghost.fifo_inv bytes bufcount q m.
Proof.
  intros Hb Hn Hmax Hstart Hrun.
  destruct (@reader_thread_start_ring_ok e bytes frames bufcount s0 es0
              Hb Hn Hmax Hstart) as [Hok _].
  apply fifo_inv_run
    with (acts := acts) (q := []) (m := Machine.init s0); try assumption.
  split; [apply MachineFacts.ring_inv_init; assumption | intros; exact I].
Qed.

Lemma copy_pending_step (m : Machine.machine) (a : Machine.action)
    (e : Machine.event) (m' : Machine.machine) (ret : Z) (src : option Z)
    (d : Mem.block) :
  Ghost.outside_read a = true ->
  Machine.con m = Machine.CCopy ret src d ->
  Machine.step m a = Some (e, m') ->
  Machine.con m' = Machine.CCopy ret src d
  /\ buf (Machine.shared m') = buf (Machine.shared m)
  /\ period_bytes (Machine.shared m') = period_bytes (Machine.shared m).
Proof.
  destruct m as [s l p k]. cbn [Machine.con Machine.shared].
  intros Ha -> Hstep.
  destruct a; try discriminate Ha; MachineFacts.step_unfold Hstep;
    try discriminate Hstep.
  - destruct p as [| |ptr nxt|nxt rc0|]; try discriminate.
    + destruct l; [discriminate|]. injection Hstep as <- <-. auto.
    + destruct (loop_head s) as [s1 o] eqn:Hhead.
      destruct (GhostFacts.loop_head_flags _ Hhead)
        as [_ [_ [_ [_ [_ [Hp [_ [_ Hbuf]]]]]]]].
      destruct o as [[ptr nxt]|]; injection Hstep as <- <-; auto.
    + destruct l; [discriminate|].
      destruct (GhostFacts.loop_tail_flags s nxt rc0)
        as [_ [_ [_ [_ [Hp [_ [_ Hbuf]]]]]]].
      destruct (loop_tail s nxt rc0) as [s1 es1]. cbn [fst] in *.
      injection Hstep as <- <-. auto.
  - injection Hstep as <- <-. auto.
Qed.

Lemma copy_pending_run (mid : list Machine.action) :
  forall (m : Machine.machine) (evs : list Machine.event)
         (m' : Machine.machine) (ret : Z) (src : option Z) (d : Mem.block),
    forallb Ghost.outside_read mid = true ->
    Machine.con m = Machine.CCopy ret src d ->
    Machine.run m mid = Some (evs, m') ->
    Machine.con m' = Machine.CCopy ret src d
    /\ buf (Machine.shared m') = buf (Machine.shared m)
    /\ period_bytes (Machine.shared m') = period_bytes (Machine.shared m).
Proof.
  induction mid as [|a mid IH]; intros m evs m' ret src d Hmid Hcon Hrun.
  - cbn in Hrun. injection Hrun as <- <-. auto.
  - cbn [forallb] in Hmid. apply andb_true_iff in Hmid.
    destruct Hmid as [Ha Hmid].
    apply MachineFacts.run_cons in Hrun.
    destruct Hrun as [e [m1 [es1 [Hstep [Hrun _]]]]].
    destruct (@copy_pending_step _ _ _ _ _ _ _ Ha Hcon Hstep)
      as [Hc1 [Hb1 Hp1]].
    destruct (IH _ _ _ _ _ _ Hmid Hc1 Hrun) as [Hc2 [Hb2 Hp2]].
    split; [assumption|]. split; congruence.
Qed.

(** X3.  Whatever the two threads do after a successful start, the
    periods queued and not yet taken or discarded lie in the ring from the
    tail slot on, oldest first, each as it was when it was queued: there
    are fewer of them than slots, none when the offsets are equal, and the
    capture thread writes into none of their slots. *)
Theorem unread_periods_stay_in_their_slots
    (e : libc) (bytes frames bufcount : Z)
    (s0 : reader_thread_state) (es0 : list effect)
    (acts : list Machine.action) (q : list Mem.block) (m : Machine.machine) :
  0 < bytes -> 2 <= bufcount -> bytes * bufcount <= CInt.INT_MAX ->
  reader_thread_start e bytes frames bufcount = (Some s0, es0) ->
  Ghost.run_queue (Machine.init s0) [] acts = Some (q, m) ->
  Z.of_nat (length q) < bufcount
  /\ (head_offset (Machine.shared m) = tail_offset (Machine.shared m)
      <-> q = [])
  /\ exists ti,
       0 <= ti < bufcount
       /\ tail_offset (Machine.shared m) = bytes * ti
       /\ holds bytes bufcount (buf (Machine.shared m)) ti q.
Proof.
  intros Hb Hn Hmax Hstart Hrun.
  destruct (@start_run_fifo_inv _ _ _ _ _ _ _ _ _ Hb Hn Hmax Hstart Hrun)
    as [Hring Hq].
  assert (Hempty := @MachineFacts.ring_inv_empty bytes bufcount Hb Hn
                      (length q) m Hring).
  destruct Hring as [hi [ti [Hok [Hhi [Hc _]]]]].
  split; [exact Hc|]. split.
  - rewrite Hempty. destruct q; cbn; split; congruence.
  - exists ti. split; [apply Hok|]. split; [apply Hok|]. apply Hq with hi. exact Hok.
Qed.

Lemma unread_periods_stay_in_their_slots_witness :
  exists q m,
    Ghost.run_queue (Machine.init ex_s0) [] ex_schedule = Some (q, m)
    /\ Z.of_nat (length q) < 4.
Proof.
  destruct (Ghost.run_queue (Machine.init ex_s0) [] ex_schedule)
    as [[q m]|] eqn:Hrun; [|vm_compute in Hrun; discriminate Hrun].
  exists q, m. split; [reflexivity|].
  destruct (@unread_periods_stay_in_their_slots ex_libc 2 1 4 ex_s0 []
              ex_schedule q m) as [H _].
  - lia.
  - lia.
  - unfold CInt.INT_MAX. lia.
  - reflexivity.
  - exact Hrun.
  - exact H.
Defined.

(** X11.  A poll that leaves line 118 with return value 0 has taken the
    oldest period queued and not yet taken, and its copy (lines 119-121,
    without the mutex) puts that period, as it was queued, at the front
    of the destination, provided no device read returns between the two;
    the capture thread may pass its loop test and the stop may come. *)
Theorem poll_copies_the_oldest_unread_period
    (e : libc) (bytes frames bufcount : Z)
    (s0 : reader_thread_state) (es0 : list effect)
    (acts mid : list Machine.action) (q : list Mem.block)
    (m m1 m2 : Machine.machine) (dst : Mem.block)
    (evs : list Machine.event) :
  0 < bytes -> 2 <= bufcount -> bytes * bufcount <= CInt.INT_MAX ->
  reader_thread_start e bytes frames bufcount = (Some s0, es0) ->
  Ghost.run_queue (Machine.init s0) [] acts = Some (q, m) ->
  Machine.con m = Machine.CLoop dst ->
  Machine.step m Machine.AConsumer = Some (Machine.EvPollLocked 0, m1) ->
  forallb Ghost.outside_read mid = true ->
  Machine.run m1 mid = Some (evs, m2) ->
  exists x q',
    q = x :: q'
    /\ Mem.len x = bytes
    /\ Machine.step m2 Machine.AConsumer
       = Some (Machine.EvPollReturn 0
                 (Some (x ++ skipn (Z.to_nat bytes) dst)),
               Machine.mk_machine (Machine.shared m2) (Machine.mu m2)
                                  (Machine.cap m2) Machine.CIdle).
Proof.
  intros Hb Hn Hmax Hstart Hrun Hcon Hstep Hmid Hrun2.
  destruct (@start_run_fifo_inv _ _ _ _ _ _ _ _ _ Hb Hn Hmax Hstart Hrun)
    as [Hring Hq].
  assert (Hempty := @MachineFacts.ring_inv_empty bytes bufcount Hb Hn
                      (length q) m Hring).
  destruct Hring as [hi [ti [Hok [Hhi [Hc _]]]]].
  specialize (Hq hi ti Hok).
  destruct m as [s l p k]. cbn [Machine.con Machine.shared] in *. subst k.
  MachineFacts.step_unfold Hstep.
  destruct (poll_must_wait s) eqn:Hwait; [discriminate|].
  destruct (poll_locked s) as [[ret src] s1] eqn:Hpoll.
  injection Hstep as -> <-.
  destruct (GhostFacts.poll_locked_cases _ Hpoll)
    as [[Hr _] | [[Hr _] | [_ [-> [He [Ho [_ [Hbuf [_ [_ [_ [Hp _]]]]]]]]]]]];
    try discriminate Hr.
  unfold poll_must_wait in Hwait. rewrite Ho, He in Hwait.
  cbn [orb negb] in Hwait. rewrite andb_true_r in Hwait.
  apply Z.eqb_neq in Hwait.
  destruct q as [|x q']; [exfalso; apply Hwait, Hempty; reflexivity|].
  cbn [holds] in Hq. destruct Hq as [Hx _].
  assert (Hkeep := fun H => @copy_pending_run mid _ evs m2 0
                                (Some (tail_offset s)) dst Hmid H Hrun2).
  destruct (Hkeep eq_refl) as [Hc2 [Hb2 Hp2]]. clear Hkeep.
  cbn [Machine.shared] in Hb2, Hp2.
  exists x, q'. split; [reflexivity|]. split.
  - rewrite <- Hx. assert (Hti := ok_ti Hok). assert (Hl := ok_buf Hok).
    apply MemFacts.len_load; nia.
  - destruct m2 as [s2 l2 p2 k2]. cbn [Machine.con Machine.shared] in *.
    subst k2. unfold Machine.step, Machine.step_consumer.
    cbn [Machine.con Machine.shared Machine.mu Machine.cap].
    unfold poll_copy, Mem.memcpy. cbn [Z.eqb].
    rewrite Hb2, Hp2, Hbuf, Hp, (ok_period_bytes Hok), (ok_tail Hok), Hx.
    reflexivity.
Qed.

Lemma poll_copies_the_oldest_unread_period_witness :
  exists q m m1 evs m2,
    Ghost.run_queue (Machine.init ex_s0) [] (firstn 6 ex_schedule)
    = Some (q, m)
    /\ Machine.step m Machine.AConsumer = Some (Machine.EvPollLocked 0, m1)
    /\ Machine.run m1 [Machine.AStop] = Some (evs, m2)
    /\ exists x q',
         q = x :: q'
         /\ Mem.len x = 2
         /\ Machine.step m2 Machine.AConsumer
            = Some (Machine.EvPollReturn 0
                      (Some (x ++ skipn (Z.to_nat 2) ex_dst)),
                    Machine.mk_machine (Machine.shared m2) (Machine.mu m2)
                                       (Machine.cap m2) Machine.CIdle).
Proof.
  destruct (Ghost.run_queue (Machine.init ex_s0) [] (firstn 6 ex_schedule))
    as [[q m]|] eqn:Hrun; [|vm_compute in Hrun; discriminate Hrun].
  assert (Hm : Machine.con m = Machine.CLoop ex_dst)
    by (vm_compute in Hrun; injection Hrun as _ <-; reflexivity).
  destruct (Machine.step m Machine.AConsumer) as [[e1 m1]|] eqn:Hstep;
    [|vm_compute in Hrun; injection Hrun as _ <-; vm_compute in Hstep;
      discriminate Hstep].
  assert (He1 : e1 = Machine.EvPollLocked 0)
    by (vm_compute in Hrun; injection Hrun as _ <-; vm_compute in Hstep;
        injection Hstep as <- _; reflexivity).
  subst e1.
  destruct (Machine.run m1 [Machine.AStop]) as [[evs m2]|] eqn:Hrun2;
    [|vm_compute in Hrun2; discriminate Hrun2].
  exists q, m, m1, evs, m2.
  split; [reflexivity|]. split; [exact Hstep|]. split; [exact Hrun2|].
  apply (@poll_copies_the_oldest_unread_period ex_libc 2 1 4 ex_s0 []
           (firstn 6 ex_schedule) [Machine.AStop] q m m1 m2 ex_dst evs).
  - lia.
  - lia.
  - unfold CInt.INT_MAX. lia.
  - reflexivity.
  - exact Hrun.
  - exact Hm.
  - exact Hstep.
  - reflexivity.
  - exact Hrun2.
Defined.

(** ** A ring of one slot *)

Lemma one_slot_next_offset (s : reader_thread_state) :
  head_offset s = 0 -> buf_len s = CInt.mul (period_bytes s) 1 ->
  next_offset s = 0.
Proof.
  intros Hh Hl. unfold next_offset. rewrite Hh, Hl.
  unfold CInt.add, CInt.mul.
  replace (0 + period_bytes s) with (period_bytes s * 1) by lia.
  destruct (Z.geb_spec (CInt.wrap (period_bytes s * 1))
                       (CInt.wrap (period_bytes s * 1))); [reflexivity | lia].
Qed.

Lemma loop_head_next (s s' : reader_thread_state) (ptr nxt : Z) :
  loop_head s = (s', Some (ptr, nxt)) ->
  ptr = head_offset s /\ nxt = next_offset s.
Proof.
  unfold loop_head. destruct (stop s); [discriminate|].
  intros H. injection H as _ <- <-. auto.
Qed.

Lemma one_slot_step (m : Machine.machine) (a : Machine.action)
    (e : Machine.event) (m' : Machine.machine) :
  Ghost.one_slot m -> Machine.step m a = Some (e, m') ->
  Ghost.one_slot m' /\ Ghost.delivers e = false.
Proof.
  destruct m as [s l p k]. unfold Ghost.one_slot.
  cbn [Machine.shared Machine.cap]. intros [Hh [Ht [Hl Hp]]] Hstep.
  destruct a; MachineFacts.step_unfold Hstep.
  - destruct p as [| |ptr nxt|nxt rc0|]; try discriminate.
    + destruct l; [discriminate|]. injection Hstep as <- <-.
      cbn [Machine.shared Machine.cap Ghost.delivers]. auto.
    + destruct (loop_head s) as [s1 o] eqn:Hhead.
      destruct (GhostFacts.loop_head_flags _ Hhead)
        as [_ [_ [_ [Hh1 [Ht1 [Hp1 [_ [Hl1 _]]]]]]]].
      destruct o as [[ptr nxt]|]; injection Hstep as <- <-;
        cbn [Machine.shared Machine.cap Ghost.delivers];
        (split; [|reflexivity]); repeat split; try congruence.
      apply loop_head_next in Hhead. destruct Hhead as [_ ->].
      apply one_slot_next_offset; assumption.
    + destruct l; [discriminate|].
      destruct (GhostFacts.loop_tail_flags s nxt rc0)
        as [_ [_ [_ [Ht1 [Hp1 [_ [Hl1 _]]]]]]].
      assert (Hh1 : head_offset (fst (loop_tail s nxt rc0)) = 0)
        by (unfold loop_tail; destruct (classify s rc0); cbn; assumption).
      destruct (loop_tail s nxt rc0) as [s1 es1]. cbn [fst] in *.
      injection Hstep as <- <-.
      cbn [Machine.shared Machine.cap Ghost.delivers].
      (split; [|reflexivity]); repeat split; congruence.
  - destruct p as [| |ptr nxt|nxt rc0|]; try discriminate.
    destruct (Mem.len (written r) <=? period_bytes s); [|discriminate].
    injection Hstep as <- <-.
    cbn [Machine.shared Machine.cap Ghost.delivers]. auto.
  - injection Hstep as <- <-.
    cbn [Machine.shared Machine.cap Ghost.delivers]. auto.
  - destruct k; try discriminate. injection Hstep as <- <-.
    cbn [Machine.shared Machine.cap Ghost.delivers]. auto.
  - destruct k; try discriminate. destruct l; [discriminate|].
    injection Hstep as <- <-.
    cbn [Machine.shared Machine.cap Ghost.delivers]. auto.
  - destruct k as [|d|d|ret src d]; try discriminate.
    + destruct (poll_must_wait s) eqn:Hwait.
      * injection Hstep as <- <-.
        cbn [Machine.shared Machine.cap Ghost.delivers]. auto.
      * destruct (poll_locked s) as [[ret src] s1] eqn:Hpoll.
        injection Hstep as <- <-.
        cbn [Machine.shared Machine.cap Ghost.delivers].
        destruct (GhostFacts.poll_locked_cases _ Hpoll)
          as [[-> [_ [-> _]]] | [[-> [_ [_ [_ ->]]]] | [_ [_ [He [Ho _]]]]]].
        -- auto.
        -- cbn. auto.
        -- unfold poll_must_wait in Hwait. rewrite Hh, Ht, He, Ho in Hwait.
           discriminate Hwait.
    + destruct l; [discriminate|]. injection Hstep as <- <-.
      cbn [Machine.shared Machine.cap Ghost.delivers]. auto.
    + injection Hstep as <- <-.
      cbn [Machine.shared Machine.cap Ghost.delivers]. auto.
Qed.

(** X12.  [reader_thread_start] accepts [bufcount = 1], and the ring it
    builds never hands out a period: whatever the two threads do, both
    offsets stay 0 and no poll leaves its locked part with return value 0
    (a poll waits, or reports an overrun or the error). *)
Theorem one_slot_ring_never_delivers
    (e : libc) (bytes frames : Z) (s0 : reader_thread_state)
    (es0 : list effect) (acts : list Machine.action) :
  reader_thread_start e bytes frames 1 = (Some s0, es0) ->
  forall (evs : list Machine.event) (m : Machine.machine),
    Machine.run (Machine.init s0) acts = Some (evs, m) ->
    existsb Ghost.delivers evs = false
    /\ head_offset (Machine.shared m) = 0
    /\ tail_offset (Machine.shared m) = 0.
Proof.
  intros Hstart.
  apply reader_thread_start_success in Hstart.
  destruct Hstart as [b [_ [_ [-> _]]]].
  assert (Hinit : Ghost.one_slot
            (Machine.init (mk_state b 0 0 frames bytes (CInt.mul bytes 1)
                                    false false false)))
    by (repeat split).
  revert Hinit. generalize (Machine.init
    (mk_state b 0 0 frames bytes (CInt.mul bytes 1) false false false)).
  induction acts as [|a acts IH]; intros m0 Hinv evs m Hrun.
  - cbn in Hrun. injection Hrun as <- <-.
    split; [reflexivity|]. split; apply Hinv.
  - apply MachineFacts.run_cons in Hrun.
    destruct Hrun as [e1 [m1 [es1 [Hstep [Hrun ->]]]]].
    destruct (one_slot_step _ Hinv Hstep) as [Hinv1 He1].
    cbn [existsb]. rewrite He1. apply (IH m1 Hinv1 es1 m Hrun).
Qed.

Lemma one_slot_ring_never_delivers_witness :
  exists evs m,
    Machine.run (Machine.init (mk_state (repeat xff 2) 0 0 1 2 2
                                        false false false))
                ex_schedule_poll_one_slot = Some (evs, m)
    /\ existsb Ghost.delivers evs = false.
Proof.
  destruct (Machine.run (Machine.init (mk_state (repeat xff 2) 0 0 1 2 2
                                                false false false))
                        ex_schedule_poll_one_slot)
    as [[evs m]|] eqn:Hrun; [|vm_compute in Hrun; discriminate Hrun].
  exists evs, m. split; [reflexivity|].
  destruct (@one_slot_ring_never_delivers ex_libc 2 1 _ []
              ex_schedule_poll_one_slot eq_refl evs m Hrun) as [H _].
  exact H.
Defined.

(** ** One poll after each read *)

Section Stream.

Variables pb n : Z.
Hypothesis Hpb : 0 < pb.
Hypothesis Hn : 2 <= n.
Hypothesis Hmax : pb * n <= CInt.INT_MAX.

Lemma stream_delivers (rds : list (readi_result * Mem.block)) :
  forall (s : reader_thread_state) (ti : Z),
    3 <= n ->
    ring_ok pb n s ti ti ->
    stop s = false -> overrun s = false -> error s = false ->
    Forall (fun rd => full_period pb (fst rd)) rds ->
    stream s (pb * ti) (pb * slot n ti 1) rds
    = map (fun rd => (0, Some (written (fst rd)
                               ++ skipn (Z.to_nat pb) (snd rd)))) rds.
Proof.
  induction rds as [|[r d] rds IH]; intros s ti Hn3 Hok Hstop Hov Herr Hrds.
  - reflexivity.
  - apply Forall_cons_iff in Hrds. destruct Hrds as [Hr Hrds].
    cbn [fst] in Hr. assert (Hti := ok_ti Hok).
    destruct (@capture_reads_publishes pb n Hpb Hn Hmax [r] s ti [])
      as [s1 [Hcap [Hok1 [Hstop1 [Hov1 [Herr1 Hq1]]]]]];
      try assumption; try exact I.
    + cbn [length]. change (Z.of_nat 0) with 0.
      rewrite slot_0 by lia. assumption.
    + cbn [length]. lia.
    + constructor; [assumption | constructor].
    + cbn [length app map] in *.
      change (Z.of_nat 0) with 0 in *. change (Z.of_nat 1) with 1 in *.
      rewrite slot_0 in Hcap by lia.
      change (0 + 1) with 1 in *. change (1 + 1) with 2 in *.
      destruct (@poll_seq_drains pb n Hpb Hn Hmax [written r] s1 ti [d])
        as [s2 [Hp [Hok2 [Hov2 [Herr2 [Hstop2 _]]]]]];
        cbn [length]; try assumption; try congruence; try lia.
      cbn [length] in Hok2. change (Z.of_nat 1) with 1 in Hok2.
      cbn [stream]. rewrite Hcap.
      cbn [poll_seq] in Hp.
      destruct (reader_thread_poll s1 (Some d)) as [|ret s' d' es'];
        [discriminate Hp|].
      unfold delivered in Hp. cbn [combine map fst snd] in Hp.
      injection Hp as -> -> ->.
      cbn [map fst snd]. f_equal.
      change 2 with (1 + 1). rewrite <- (@slot_slot_1 n Hn ti 1) by lia.
      apply IH; try assumption; congruence.
Qed.

Lemma stream_two_slots (rds : list (readi_result * Mem.block)) :
  forall (s : reader_thread_state) (ti : Z),
    n = 2 ->
    ring_ok pb n s ti ti ->
    stop s = false -> overrun s = false -> error s = false ->
    Forall (fun rd => full_period pb (fst rd)) rds ->
    stream s (pb * ti) (pb * slot n ti 1) rds
    = map (fun rd => (1, Some (snd rd))) rds.
Proof.
  induction rds as [|[r d] rds IH]; intros s ti Hn2 Hok Hstop Hov Herr Hrds.
  - reflexivity.
  - apply Forall_cons_iff in Hrds. destruct Hrds as [[Hrc Hlen] Hrds].
    cbn [fst] in Hrc, Hlen. assert (Hti := ok_ti Hok).
    assert (Hs1 : 0 <= slot n ti 1 < n) by (apply slot_range; lia).
    assert (Hback : slot n (slot n ti 1) 1 = ti) by (unfold slot; subst n;
      destruct (Z.ltb_spec (ti + 1) 2);
      [destruct (Z.ltb_spec (ti + 1 + 1) 2) | destruct (Z.ltb_spec (ti + 1 - 2 + 1) 2)];
      lia).
    cbn [stream capture_reads].
    unfold loop_tail.
    rewrite classify_publish by (cbn; assumption). cbn [fst].
    assert (Hok1 : ring_ok pb n
              (set_head_offset (snd_pcm_readi s (pb * ti) r)
                               (pb * slot n ti 1)) (slot n ti 1) ti).
    { apply ring_ok_set_head with (hi := ti); try assumption.
      apply ring_ok_readi; try assumption. lia. }
    rewrite (@loop_head_running pb n Hpb Hn Hmax _ _ _ Hok1)
      by (cbn; assumption).
    rewrite Hback, Z.eqb_refl.
    unfold reader_thread_poll, poll_must_wait, poll_locked, poll_copy.
    cbn [overrun error set_overrun set_head_offset snd_pcm_readi set_buf
         head_offset tail_offset orb negb andb].
    rewrite Herr. cbn [orb negb andb]. rewrite andb_false_r.
    change (1 =? 0) with false. cbv iota. cbn [map snd]. f_equal.
    match goal with
    | |- stream ?s2 _ _ _ = _ => specialize (IH s2 (slot n ti 1) Hn2)
    end.
    rewrite Hback in IH.
    apply IH; try assumption; try (cbn; assumption); try reflexivity.
    destruct Hok1 as [H1 H2 H3 H4 H5 H6 H7].
    constructor; cbn in *; assumption.
Qed.

End Stream.

(** X14.  With three slots or more, a consumer that polls once after
    each device read never sees an overrun, however long it goes on and
    however often the offsets wrap around: every poll returns 0 with the
    period just read at the front of its destination. *)
Theorem steady_polling_delivers_every_period
    (e : libc) (bytes frames bufcount : Z) (s0 : reader_thread_state)
    (es0 : list effect) (rds : list (readi_result * Mem.block)) :
  0 < bytes -> 3 <= bufcount -> bytes * bufcount <= CInt.INT_MAX ->
  reader_thread_start e bytes frames bufcount = (Some s0, es0) ->
  Forall (fun rd => full_period bytes (fst rd)) rds ->
  exists s1 ptr nxt,
    reader_thread_loop s0 [] = (s1, Some (ptr, nxt))
    /\ stream s1 ptr nxt rds
       = map (fun rd => (0, Some (written (fst rd)
                                  ++ skipn (Z.to_nat bytes) (snd rd)))) rds.
Proof.
  intros Hb Hn3 Hmax Hstart Hrds.
  assert (Hn : 2 <= bufcount) by lia.
  destruct (@reader_thread_start_ring_ok e bytes frames bufcount s0 es0
              Hb Hn Hmax Hstart) as [Hok [Hstop [Hov Herr]]].
  exists s0, (bytes * 0), (bytes * slot bufcount 0 1).
  split.
  - unfold reader_thread_loop.
    rewrite (@loop_head_running bytes bufcount Hb Hn Hmax _ _ _ Hok Hstop).
    replace (slot bufcount 0 1 =? 0) with false
      by (symmetry; apply Z.eqb_neq; unfold slot;
          destruct (Z.ltb_spec (0 + 1) bufcount); lia).
    reflexivity.
  - apply stream_delivers; assumption.
Qed.

Lemma steady_polling_delivers_every_period_witness :
  exists s1 ptr nxt,
    reader_thread_loop ex_s0 [] = (s1, Some (ptr, nxt))
    /\ stream s1 ptr nxt ex_turns
       = map (fun rd => (0, Some (written (fst rd)
                                  ++ skipn (Z.to_nat 2) (snd rd)))) ex_turns.
Proof.
  apply (@steady_polling_delivers_every_period ex_libc 2 1 4 ex_s0 []
           ex_turns).
  - lia.
  - lia.
  - unfold CInt.INT_MAX. lia.
  - reflexivity.
  - unfold ex_turns.
    repeat (constructor; [split; [cbn; lia | reflexivity]|]). constructor.
Defined.

(** X15.  With two slots the same consumer gets nothing: the capture
    thread marks the overrun at its loop test, before it releases the
    mutex after queuing a period, so every poll that follows a read
    returns 1 and leaves its destination as it was. *)
Theorem two_slot_ring_overruns_on_every_period
    (e : libc) (bytes frames : Z) (s0 : reader_thread_state)
    (es0 : list effect) (rds : list (readi_result * Mem.block)) :
  0 < bytes -> bytes * 2 <= CInt.INT_MAX ->
  reader_thread_start e bytes frames 2 = (Some s0, es0) ->
  Forall (fun rd => full_period bytes (fst rd)) rds ->
  exists s1 ptr nxt,
    reader_thread_loop s0 [] = (s1, Some (ptr, nxt))
    /\ stream s1 ptr nxt rds = map (fun rd => (1, Some (snd rd))) rds.
Proof.
  intros Hb Hmax Hstart Hrds.
  assert (Hn : 2 <= 2) by lia.
  destruct (@reader_thread_start_ring_ok e bytes frames 2 s0 es0
              Hb Hn Hmax Hstart) as [Hok [Hstop [Hov Herr]]].
  exists s0, (bytes * 0), (bytes * slot 2 0 1).
  split.
  - unfold reader_thread_loop.
    rewrite (@loop_head_running bytes 2 Hb Hn Hmax _ _ _ Hok Hstop).
    reflexivity.
  - apply stream_two_slots; try assumption; reflexivity.
Qed.

Lemma two_slot_ring_overruns_on_every_period_witness :
  exists s1 ptr nxt,
    reader_thread_loop (mk_state (repeat xff 4) 0 0 1 2 4 false false false) []
    = (s1, Some (ptr, nxt))
    /\ stream s1 ptr nxt ex_turns = map (fun rd => (1, Some (snd rd))) ex_turns.
Proof.
  apply (@two_slot_ring_overruns_on_every_period ex_libc 2 1 _ [] ex_turns).
  - lia.
  - unfold CInt.INT_MAX. lia.
  - reflexivity.
  - unfold ex_turns.
    repeat (constructor; [split; [cbn; lia | reflexivity]|]). constructor.
Defined.

(** ** Failure of [reader_thread_start] *)

(** X1.  [reader_thread_start] returns a state exactly when it leaves
    [reader_thread_error] alone.  When it returns none, it has set the
    string once, to the message of the first call that failed (the state's
    [malloc], the buffer's [malloc], [pthread_create], in this order), and
    has done nothing else that can be seen. *)
Theorem start_failure_sets_error_string
    (cur : string) (e : libc) (bytes frames bufcount : Z) :
  match fst (reader_thread_start e bytes frames bufcount) with
  | Some s =>
      snd (reader_thread_start e bytes frames bufcount) = []
      /\ start_error_string cur e bytes frames bufcount = cur
      /\ malloc_state e = true /\ pthread_create_rc e = 0
  | None =>
      snd (reader_thread_start e bytes frames bufcount)
      = [SetErrorString (start_error_string cur e bytes frames bufcount)]
      /\ start_error_string cur e bytes frames bufcount
         <> reader_thread_error_init
      /\ (malloc_state e = false ->
          start_error_string cur e bytes frames bufcount
          = "malloc failed (state)"%string)
      /\ (malloc_state e = true ->
          malloc e (CInt.mul bytes bufcount) = None ->
          start_error_string cur e bytes frames bufcount
          = "malloc failed (buf)"%string)
      /\ (malloc_state e = true ->
          malloc e (CInt.mul bytes bufcount) <> None ->
          pthread_create_rc e <> 0
          /\ start_error_string cur e bytes frames bufcount
             = "pthread_create failed"%string)
  end.
Proof.
  unfold start_error_string, reader_thread_start.
  destruct (malloc_state e); cbn [negb].
  - destruct (malloc e (CInt.mul bytes bufcount)) as [b|] eqn:Hm.
    + destruct (Z.eqb_spec (pthread_create_rc e) 0) as [Hrc|Hrc];
        cbn [fst snd error_string_after].
      * repeat split; assumption.
      * split; [reflexivity|]. split; [discriminate|].
        split; [discriminate|]. split; [discriminate|].
        intros _ _. split; [assumption | reflexivity].
    + cbn [fst snd error_string_after].
      split; [reflexivity|]. split; [discriminate|].
      split; [discriminate|]. split; [reflexivity|].
      intros _ H. exfalso. apply H. reflexivity.
  - cbn [fst snd error_string_after].
    split; [reflexivity|]. split; [discriminate|].
    split; [reflexivity|]. split; discriminate.
Qed.

Lemma start_failure_sets_error_string_witness :
  fst (reader_thread_start (mk_libc true (fun _ => None) 0) 2 1 4) = None
  /\ start_error_string reader_thread_error_init
       (mk_libc true (fun _ => None) 0) 2 1 4
     = "malloc failed (buf)"%string.
Proof.
  split; [reflexivity|].
  assert (H := start_failure_sets_error_string reader_thread_error_init
                 (mk_libc true (fun _ => None) 0) 2 1 4).
  cbn [fst reader_thread_start malloc_state negb malloc heap] in H.
  destruct H as [_ [_ [_ [H _]]]]. apply H; reflexivity.
Defined.
